(** * Order reconciliation: cluster merging, cost folding and snapshot import

    A shallow embedding of [reconcile.py] and [reconciliation_uploader.py].

    Python objects are shared and mutated in place.  The list [all_clusters]
    is therefore the store: a cluster object is identified by its position in
    that list, and the dictionary [clusters_by_tracking] maps a tracking number
    to such a position.  Mutating a cluster is an in-place update of the list,
    visible through every mapping entry that refers to it. *)

From stdpp Require Import gmap strings list fin_maps.
From Stdlib Require Import ZArith.

(** ** Numbers

    Costs are Python numbers (floats, and the integer literal [0] in two
    places).  The code only adds, subtracts and compares them with [<], so the
    model is generic in the carrier and assumes no arithmetic law: every
    statement below also holds for IEEE doubles.  Sums are always stated in
    the order in which the code performs the additions. *)

Class Num (cost : Type) := {
  czero : cost;
  cadd : cost → cost → cost;
  csub : cost → cost → cost;
  cltb : cost → cost → bool;
}.

(** Python's [sum(xs)]: starts from 0 and adds from left to right. *)
Definition py_sum `{Num cost} (xs : list cost) : cost := foldl cadd czero xs.

(** ** Strings *)

Module PyStr.

(** [str.isspace] on one ASCII character: TAB..CR, FS..US and the space.
    Strings are byte strings here, so the whitespace characters of Unicode
    beyond ASCII are outside the model. *)
Definition isspace (a : Ascii.ascii) : bool :=
  let n := Ascii.nat_of_ascii a in
  ((9 <=? n) && (n <=? 13)) || ((28 <=? n) && (n <=? 32)).

Fixpoint lstrip (s : string) : string :=
  match s with
  | EmptyString => EmptyString
  | String a s' => if isspace a then lstrip s' else s
  end.

Fixpoint rstrip (s : string) : string :=
  match s with
  | EmptyString => EmptyString
  | String a s' =>
      match rstrip s' with
      | EmptyString => if isspace a then EmptyString else String a EmptyString
      | r => String a r
      end
  end.

(** [s.strip()] *)
Definition strip (s : string) : string := rstrip (lstrip s).

(** Truth value of a string: non-empty. *)
Definition truthy (s : string) : bool :=
  match s with EmptyString => false | String _ _ => true end.

(** A string made of whitespace only (the empty string included). *)
Fixpoint blank (s : string) : bool :=
  match s with
  | EmptyString => true
  | String a s' => isspace a && blank s'
  end.

(** [sep.join(l)] *)
Fixpoint join (sep : string) (l : list string) : string :=
  match l with
  | [] => EmptyString
  | x :: rest =>
      match rest with
      | [] => x
      | _ :: _ => x +:+ sep +:+ join sep rest
      end
  end.

End PyStr.

(** ** The cluster object *)

Module Clusters.

(** The fields of a cluster, as the two source files read and write them. *)
Record Cluster {cost : Type} := mkCluster {
  trackings : gset string;
  orders : gset string;
  purchase_orders : gset string;
  email_ids : gset string;
  group : string;
  expected_cost : cost;
  tracked_cost : cost;
  adjustment : cost;
  non_reimbursed_trackings : gset string;
  cancelled_items : list string;
  manual_override : bool;
  verified : bool;
  below_cost : bool;
  notes : string;
  last_ship_date : string;
}.
Arguments Cluster : clear implicits.
Arguments mkCluster {cost}.

Section setters.
Context {cost : Type}.
Implicit Types c : Cluster cost.

Definition set_trackings (v : gset string) c : Cluster cost :=
  mkCluster v (orders c) (purchase_orders c) (email_ids c) (group c)
    (expected_cost c) (tracked_cost c) (adjustment c)
    (non_reimbursed_trackings c) (cancelled_items c) (manual_override c)
    (verified c) (below_cost c) (notes c) (last_ship_date c).

Definition set_orders (v : gset string) c : Cluster cost :=
  mkCluster (trackings c) v (purchase_orders c) (email_ids c) (group c)
    (expected_cost c) (tracked_cost c) (adjustment c)
    (non_reimbursed_trackings c) (cancelled_items c) (manual_override c)
    (verified c) (below_cost c) (notes c) (last_ship_date c).

Definition set_purchase_orders (v : gset string) c : Cluster cost :=
  mkCluster (trackings c) (orders c) v (email_ids c) (group c)
    (expected_cost c) (tracked_cost c) (adjustment c)
    (non_reimbursed_trackings c) (cancelled_items c) (manual_override c)
    (verified c) (below_cost c) (notes c) (last_ship_date c).

Definition set_expected_cost (v : cost) c : Cluster cost :=
  mkCluster (trackings c) (orders c) (purchase_orders c) (email_ids c)
    (group c) v (tracked_cost c) (adjustment c)
    (non_reimbursed_trackings c) (cancelled_items c) (manual_override c)
    (verified c) (below_cost c) (notes c) (last_ship_date c).

Definition set_tracked_cost (v : cost) c : Cluster cost :=
  mkCluster (trackings c) (orders c) (purchase_orders c) (email_ids c)
    (group c) (expected_cost c) v (adjustment c)
    (non_reimbursed_trackings c) (cancelled_items c) (manual_override c)
    (verified c) (below_cost c) (notes c) (last_ship_date c).

Definition set_adjustment (v : cost) c : Cluster cost :=
  mkCluster (trackings c) (orders c) (purchase_orders c) (email_ids c)
    (group c) (expected_cost c) (tracked_cost c) v
    (non_reimbursed_trackings c) (cancelled_items c) (manual_override c)
    (verified c) (below_cost c) (notes c) (last_ship_date c).

Definition set_non_reimbursed_trackings (v : gset string) c : Cluster cost :=
  mkCluster (trackings c) (orders c) (purchase_orders c) (email_ids c)
    (group c) (expected_cost c) (tracked_cost c) (adjustment c)
    v (cancelled_items c) (manual_override c)
    (verified c) (below_cost c) (notes c) (last_ship_date c).

Definition set_manual_override (v : bool) c : Cluster cost :=
  mkCluster (trackings c) (orders c) (purchase_orders c) (email_ids c)
    (group c) (expected_cost c) (tracked_cost c) (adjustment c)
    (non_reimbursed_trackings c) (cancelled_items c) v
    (verified c) (below_cost c) (notes c) (last_ship_date c).

Definition set_verified (v : bool) c : Cluster cost :=
  mkCluster (trackings c) (orders c) (purchase_orders c) (email_ids c)
    (group c) (expected_cost c) (tracked_cost c) (adjustment c)
    (non_reimbursed_trackings c) (cancelled_items c) (manual_override c)
    v (below_cost c) (notes c) (last_ship_date c).

Definition set_below_cost (v : bool) c : Cluster cost :=
  mkCluster (trackings c) (orders c) (purchase_orders c) (email_ids c)
    (group c) (expected_cost c) (tracked_cost c) (adjustment c)
    (non_reimbursed_trackings c) (cancelled_items c) (manual_override c)
    (verified c) v (notes c) (last_ship_date c).

Definition set_notes (v : string) c : Cluster cost :=
  mkCluster (trackings c) (orders c) (purchase_orders c) (email_ids c)
    (group c) (expected_cost c) (tracked_cost c) (adjustment c)
    (non_reimbursed_trackings c) (cancelled_items c) (manual_override c)
    (verified c) (below_cost c) v (last_ship_date c).

Definition set_email_ids (v : gset string) c : Cluster cost :=
  mkCluster (trackings c) (orders c) (purchase_orders c) v
    (group c) (expected_cost c) (tracked_cost c) (adjustment c)
    (non_reimbursed_trackings c) (cancelled_items c) (manual_override c)
    (verified c) (below_cost c) (notes c) (last_ship_date c).

Definition set_cancelled_items (v : list string) c : Cluster cost :=
  mkCluster (trackings c) (orders c) (purchase_orders c) (email_ids c)
    (group c) (expected_cost c) (tracked_cost c) (adjustment c)
    (non_reimbursed_trackings c) v (manual_override c)
    (verified c) (below_cost c) (notes c) (last_ship_date c).

(** Modelled from the spec: [Cluster.merge_with] lives in [lib/clusters.py],
    which is not among the sources.  The spec (Cluster Merge Engine) says
    that absorbing a cluster unions all of its trackings, orders and
    purchase orders into the target and leaves the absorbed object behind.
    The spec is silent on the other fields of the target; the model keeps
    them, and no statement below depends on them. *)
Definition merge_with (self other : Cluster cost) : Cluster cost :=
  set_purchase_orders (purchase_orders self ∪ purchase_orders other)
    (set_orders (orders self ∪ orders other)
       (set_trackings (trackings self ∪ trackings other) self)).

End setters.

End Clusters.

Import Clusters.

(** ** reconciliation_uploader.py *)

Module Uploader.

Section with_num.
Context `{Num cost}.
Implicit Types cluster : Cluster cost.

(** [total_diff].  The literal [0] of the first branch is the zero of the
    carrier. *)
Definition total_diff cluster : cost :=
  if manual_override cluster then czero
  else csub (cadd (tracked_cost cluster) (adjustment cluster))
            (expected_cost cluster).

(** [compare], a three-way comparison in the [cmp] convention. *)
Definition compare (cluster_one cluster_two : Cluster cost) : Z :=
  if verified cluster_two then (-1)%Z
  else if verified cluster_one && below_cost cluster_two then 0%Z
  else if negb (verified cluster_one) && below_cost cluster_two then (-1)%Z
  else if cltb (total_diff cluster_one) (total_diff cluster_two) then 1%Z
  else 0%Z.

(** [functools.cmp_to_key(compare)] wraps each cluster in a key whose
    [__lt__] is [compare(self, other) < 0]; [list.sort] uses nothing else.
    So [one] is ordered before [two] when the comparison is negative and
    after it when the comparison is positive. *)
Definition key_lt (one two : Cluster cost) : bool := (compare one two <? 0)%Z.
Definition sorts_before (one two : Cluster cost) : Prop := (compare one two < 0)%Z.
Definition sorts_after (one two : Cluster cost) : Prop := (0 < compare one two)%Z.

(** What [list.sort(key=cmp_to_key(compare))] does to a list of two
    clusters: it asks whether the second key is less than the first and
    swaps the two exactly then. *)
Definition sort_pair (a b : Cluster cost) : list (Cluster cost) :=
  if key_lt b a then [b; a] else [a; b].

(** [find_candidate_downloads]: the snapshot clusters whose trackings
    intersect the cluster's, in snapshot order. *)
Definition find_candidate_downloads cluster
    (downloaded_clusters : list (Cluster cost)) : list (Cluster cost) :=
  filter (λ downloaded_cluster,
            trackings downloaded_cluster ∩ trackings cluster ≠ ∅)
         downloaded_clusters.

(** The body of the loop of [override_pos_and_costs] over the candidates:
    three accumulators updated in lock step. *)
Definition override_acc
    (acc : gset string * gset string * cost) (candidate : Cluster cost)
    : gset string * gset string * cost :=
  let '(pos, non_reimbursed, total_tracked_cost) := acc in
  (pos ∪ purchase_orders candidate,
   non_reimbursed ∪ non_reimbursed_trackings candidate,
   cadd total_tracked_cost (tracked_cost candidate)).

Definition override_cluster
    (downloaded_clusters : list (Cluster cost)) cluster : Cluster cost :=
  let candidate_downloads :=
    find_candidate_downloads cluster downloaded_clusters in
  let '(pos, non_reimbursed, total_tracked_cost) :=
    foldl override_acc (∅, ∅, czero) candidate_downloads in
  set_tracked_cost total_tracked_cost
    (set_non_reimbursed_trackings non_reimbursed
       (set_purchase_orders pos cluster)).

(** [override_pos_and_costs]: every cluster of [all_clusters] is updated
    in place; the snapshot is only read. *)
Definition override_pos_and_costs
    (downloaded_clusters all_clusters : list (Cluster cost))
    : list (Cluster cost) :=
  override_cluster downloaded_clusters <$> all_clusters.

(** The guard of [fill_adjustments]: exactly one candidate, with the same
    trackings and the same orders. *)
Definition flags_source cluster
    (candidate_downloads : list (Cluster cost)) : option (Cluster cost) :=
  match candidate_downloads with
  | [sheet_cluster] =>
      if bool_decide (trackings sheet_cluster = trackings cluster)
         && bool_decide (orders sheet_cluster = orders cluster)
      then Some sheet_cluster else None
  | _ => None
  end.

Definition fill_adjustments_cluster
    (downloaded_clusters : list (Cluster cost)) cluster : Cluster cost :=
  let candidate_downloads :=
    find_candidate_downloads cluster downloaded_clusters in
  let cluster :=
    set_adjustment (py_sum (adjustment <$> candidate_downloads)) cluster in
  let cluster :=
    set_notes
      (PyStr.join "; "%string
         (notes <$> filter (λ candidate,
                              PyStr.truthy (PyStr.strip (notes candidate)))
                           candidate_downloads))
      cluster in
  match flags_source cluster candidate_downloads with
  | Some sheet_cluster =>
      set_below_cost (below_cost sheet_cluster)
        (set_verified (verified sheet_cluster)
           (set_manual_override (manual_override sheet_cluster) cluster))
  | None => cluster
  end.

Definition fill_adjustments
    (downloaded_clusters all_clusters : list (Cluster cost))
    : list (Cluster cost) :=
  fill_adjustments_cluster downloaded_clusters <$> all_clusters.

(** The three review flags of a cluster. *)
Definition flags cluster : bool * bool * bool :=
  (manual_override cluster, verified cluster, below_cost cluster).

(** The import guard in the claim's words: [sheet_cluster] is the only
    candidate and its identity sets equal the new cluster's. *)
Definition sole_exact_match cluster
    (candidate_downloads : list (Cluster cost))
    (sheet_cluster : Cluster cost) : Prop :=
  candidate_downloads = [sheet_cluster]
  ∧ trackings sheet_cluster = trackings cluster
  ∧ orders sheet_cluster = orders cluster.

End with_num.

End Uploader.

(** ** reconcile.py *)

Module Reconcile.

(** What [OrderInfoRetriever.get_order_info] returns. *)
Record OrderInfo {cost : Type} := mkOrderInfo {
  email_id : option string;
  cost_of : cost;
}.
Arguments OrderInfo : clear implicits.
Arguments mkOrderInfo {cost}.

Section with_num.
Context `{Num cost}.
Implicit Types cluster : Cluster cost.
Implicit Types all_clusters : list (Cluster cost).
Implicit Types clusters_by_tracking : gmap string nat.

(** *** [fill_costs]

    The retriever is an external collaborator; [None] stands for a call
    that raises.  The [except] branch prints and continues with the next
    order.  Python iterates a set in an order of its own; [elements] stands
    for that order, here and wherever a set is iterated. *)
Definition add_order_cost (get_order_info : string → option (OrderInfo cost))
    (expected : cost) (order_id : string) : cost :=
  match get_order_info order_id with
  | None => expected
  | Some order_info => cadd expected (cost_of order_info)
  end.

Definition fill_costs_cluster
    (get_order_info : string → option (OrderInfo cost)) cluster
    : Cluster cost :=
  let cluster := set_expected_cost czero cluster in
  set_expected_cost
    (foldl (add_order_cost get_order_info) (expected_cost cluster)
       (elements (orders cluster)))
    cluster.

Definition fill_costs (get_order_info : string → option (OrderInfo cost))
    all_clusters : list (Cluster cost) :=
  fill_costs_cluster get_order_info <$> all_clusters.

(** The claim's wording of the same quantity: the costs of exactly the
    orders whose lookup succeeds, in iteration order. *)
Definition successful_costs
    (get_order_info : string → option (OrderInfo cost))
    (order_ids : list string) : list cost :=
  cost_of <$> omap get_order_info order_ids.

(** *** [map_clusters_by_tracking] *)

(** [for tracking in ts: clusters_by_tracking[tracking] = first_cluster] *)
Definition point_all (first_cluster : nat) clusters_by_tracking
    (ts : list string) : gmap string nat :=
  foldl (λ result tracking, <[tracking := first_cluster]> result)
        clusters_by_tracking ts.

Fixpoint map_clusters_from (i : nat) all_clusters (result : gmap string nat)
    : gmap string nat :=
  match all_clusters with
  | [] => result
  | cluster :: rest =>
      map_clusters_from (S i) rest
        (point_all i result (elements (trackings cluster)))
  end.

Definition map_clusters_by_tracking all_clusters : gmap string nat :=
  map_clusters_from 0 all_clusters ∅.

(** *** [merge_by_trackings_tuples] *)

(** The list comprehension: the clusters of the mapped trackings of the
    tuple, in tuple order. *)
Definition cluster_list clusters_by_tracking (trackings_tuple : list string)
    : list nat :=
  omap (λ tracking, clusters_by_tracking !! tracking) trackings_tuple.

(** The test that guards [merge_with]. *)
Definition already_part (first_cluster other_cluster : Cluster cost) : bool :=
  bool_decide (trackings other_cluster ⊆ trackings first_cluster)
  && bool_decide (orders other_cluster ⊆ orders first_cluster).

(** One iteration of [for other_cluster in cluster_list[1:]]. *)
Definition absorb (first_cluster : nat) all_clusters (other_cluster : nat)
    : list (Cluster cost) :=
  match all_clusters !! first_cluster, all_clusters !! other_cluster with
  | Some fc, Some oc =>
      if already_part fc oc then all_clusters
      else <[first_cluster := merge_with fc oc]> all_clusters
  | _, _ => all_clusters
  end.

(** The body of the loop over the tuples. *)
Definition merge_tuple (st : list (Cluster cost) * gmap string nat)
    (trackings_tuple : list string) : list (Cluster cost) * gmap string nat :=
  if decide (length trackings_tuple = 1) then st
  else
    match cluster_list st.2 trackings_tuple with
    | [] => st
    | first_cluster :: others =>
        (foldl (absorb first_cluster) st.1 others,
         point_all first_cluster st.2 trackings_tuple)
    end.

(** [trackings_to_cost] is a dictionary keyed by tuples; its items are
    visited in insertion order, so it is an association list here. *)
Definition merge_by_trackings_tuples
    (st : list (Cluster cost) * gmap string nat)
    (trackings_to_cost : list (list string * cost))
    : list (Cluster cost) * gmap string nat :=
  foldl (λ st item, merge_tuple st item.1) st trackings_to_cost.

(** Python references never dangle: every entry of the mapping refers to
    a cluster object of the store. *)
Definition refs_valid all_clusters clusters_by_tracking : Prop :=
  ∀ tracking i,
    clusters_by_tracking !! tracking = Some i → i < length all_clusters.

(** What the merge loop maintains, relative to the set [known] of the
    trackings that had a mapping entry before merging began: every known
    tracking is still mapped, to a cluster that contains it, and clusters
    hold known trackings only. *)
Definition merge_inv (known : gset string)
    (st : list (Cluster cost) * gmap string nat) : Prop :=
  refs_valid st.1 st.2
  ∧ (∀ tracking, tracking ∈ known →
       ∃ i c, st.2 !! tracking = Some i ∧ st.1 !! i = Some c
              ∧ tracking ∈ trackings c)
  ∧ (∀ i c, st.1 !! i = Some c → trackings c ⊆ known).

(** The partition property in the claim's words: every mapping entry
    names a cluster that contains the tracking, and two different
    clusters that the mapping still refers to share no tracking. *)
Definition partition_property
    (st : list (Cluster cost) * gmap string nat) : Prop :=
  (∀ t i, st.2 !! t = Some i → ∃ c, st.1 !! i = Some c ∧ t ∈ trackings c)
  ∧ (∀ t t' i j ci cj,
       st.2 !! t = Some i → st.2 !! t' = Some j → i ≠ j →
       st.1 !! i = Some ci → st.1 !! j = Some cj →
       trackings ci ## trackings cj).

(** A tuple that the merge loop has nothing left to do for: it has length
    one, or none of its trackings is mapped, or all of them are mapped to
    the same cluster. *)
Definition settled clusters_by_tracking (trackings_tuple : list string) : Prop :=
  length trackings_tuple = 1
  ∨ (∀ t, t ∈ trackings_tuple → clusters_by_tracking !! t = None)
  ∨ ∃ f, ∀ t, t ∈ trackings_tuple → clusters_by_tracking !! t = Some f.

(** No tracking occurs in two of the tuples. *)
Fixpoint pairwise_disjoint (tuples : list (list string)) : Prop :=
  match tuples with
  | [] => True
  | tuple :: rest =>
      Forall (λ other, ∀ t, t ∈ tuple → t ∉ other) rest
      ∧ pairwise_disjoint rest
  end.

(** A set-valued field that [merge_with] unions. *)
Definition unioned (sel : Cluster cost → gset string) : Prop :=
  ∀ a b, sel (merge_with a b) = sel a ∪ sel b.

(** A field on which "already part of" implies inclusion. *)
Definition tested (sel : Cluster cost → gset string) : Prop :=
  ∀ a b, already_part a b = true → sel b ⊆ sel a.

(** *** [fill_costs_new] *)

(** [args.groups and cluster.group not in args.groups]; [None] and the
    empty list are both false. *)
Definition skipped (groups : list string) cluster : bool :=
  match groups with
  | [] => false
  | _ :: _ => bool_decide (group cluster ∉ groups)
  end.

Definition reset_cluster (groups : list string) cluster : Cluster cost :=
  if skipped groups cluster then cluster
  else set_tracked_cost czero
         (set_non_reimbursed_trackings (trackings cluster) cluster).

(** [clusters_by_tracking.values()]: one occurrence of a cluster per
    tracking that maps to it. *)
Definition mapping_values clusters_by_tracking : list nat :=
  (map_to_list clusters_by_tracking).*2.

Definition reset_all (groups : list string) clusters_by_tracking all_clusters
    : list (Cluster cost) :=
  foldl (λ all i, alter (reset_cluster groups) i all) all_clusters
        (mapping_values clusters_by_tracking).

(** The inner loop that removes the trackings of the tuple. *)
Definition remove_reimbursed (non_reimbursed : gset string)
    (trackings_tuple : list string) : gset string :=
  foldl (λ s tracking, if bool_decide (tracking ∈ s) then s ∖ {[tracking]} else s)
        non_reimbursed trackings_tuple.

Definition attribute (c : cost) (trackings_tuple : list string) cluster
    : Cluster cost :=
  let cluster := set_tracked_cost (cadd (tracked_cost cluster) c) cluster in
  set_non_reimbursed_trackings
    (remove_reimbursed (non_reimbursed_trackings cluster) trackings_tuple)
    cluster.

(** One tuple of the second loop.  [trackings_tuple[0]] raises on the
    empty tuple: [None]. *)
Definition attribute_tuple clusters_by_tracking all_clusters
    (item : list string * cost) : option (list (Cluster cost)) :=
  match item.1 with
  | [] => None
  | first_tracking :: _ =>
      match clusters_by_tracking !! first_tracking with
      | Some i => Some (alter (attribute item.2 item.1) i all_clusters)
      | None => Some all_clusters
      end
  end.

Fixpoint attribute_all clusters_by_tracking all_clusters
    (trackings_to_cost : list (list string * cost))
    : option (list (Cluster cost)) :=
  match trackings_to_cost with
  | [] => Some all_clusters
  | item :: rest =>
      match attribute_tuple clusters_by_tracking all_clusters item with
      | None => None
      | Some all' => attribute_all clusters_by_tracking all' rest
      end
  end.

(** [po_to_cost.get(po, 0.0)]; [float(...)] is the identity on the numbers
    that the carrier source delivers. *)
Definition po_cost (po_to_cost : gmap string cost) (po : string) : cost :=
  default czero (po_to_cost !! po).

Definition add_po_costs (po_to_cost : gmap string cost) cluster
    : Cluster cost :=
  set_tracked_cost
    (foldl (λ acc po, cadd acc (po_cost po_to_cost po))
           (tracked_cost cluster) (elements (purchase_orders cluster)))
    cluster.

Definition po_fixes (po_to_cost : gmap string cost) clusters_by_tracking
    all_clusters : list (Cluster cost) :=
  foldl (λ all i, alter (add_po_costs po_to_cost) i all) all_clusters
        (mapping_values clusters_by_tracking).

Definition fill_costs_new clusters_by_tracking all_clusters
    (trackings_to_cost : list (list string * cost))
    (po_to_cost : gmap string cost) (groups : list string)
    : option (list (Cluster cost)) :=
  match attribute_all clusters_by_tracking
          (reset_all groups clusters_by_tracking all_clusters)
          trackings_to_cost with
  | None => None
  | Some all' => Some (po_fixes po_to_cost clusters_by_tracking all')
  end.

(** What the invariant on the non-reimbursed trackings asks of one
    cluster, when the group filter lets the cluster through. *)
Definition reimbursed_inside (groups : list string) cluster : Prop :=
  skipped groups cluster = false →
  non_reimbursed_trackings cluster ⊆ trackings cluster.

(** *** [fill_email_ids]

    The whole body of the loop is inside the [try]: a lookup that raises
    leaves both the email ids and the expected cost as they are.
    [if order_info.email_id] is false for [None] and for the empty string. *)
Definition add_order_info (get_order_info : string → option (OrderInfo cost))
    (acc : gset string * cost) (order_id : string) : gset string * cost :=
  match get_order_info order_id with
  | None => acc
  | Some order_info =>
      (match email_id order_info with
       | Some e => if PyStr.truthy e then acc.1 ∪ {[e]} else acc.1
       | None => acc.1
       end,
       cadd acc.2 (cost_of order_info))
  end.

Definition fill_email_ids_cluster
    (get_order_info : string → option (OrderInfo cost)) cluster
    : Cluster cost :=
  let cluster := set_email_ids ∅ (set_expected_cost czero cluster) in
  let acc := foldl (add_order_info get_order_info)
               (email_ids cluster, expected_cost cluster)
               (elements (orders cluster)) in
  set_expected_cost acc.2 (set_email_ids acc.1 cluster).

Definition fill_email_ids (get_order_info : string → option (OrderInfo cost))
    all_clusters : list (Cluster cost) :=
  fill_email_ids_cluster get_order_info <$> all_clusters.

(** *** [get_new_tracking_pos_costs_maps]

    A dictionary whose iteration order matters is an association list in
    insertion order.  [d[k] = v] replaces the value of an existing key in
    place and appends a new key; [d.update(other)] does so for every item of
    [other] in turn. *)
Fixpoint dict_set {V : Type} (d : list (list string * V)) (k : list string)
    (v : V) : list (list string * V) :=
  match d with
  | [] => [(k, v)]
  | (k', v') :: d' =>
      if decide (k = k') then (k, v) :: d' else (k', v') :: dict_set d' k v
  end.

Definition dict_update {V : Type} (d other : list (list string * V))
    : list (list string * V) :=
  foldl (λ d item, dict_set d item.1 item.2) d other.

(** [d.get(k)] *)
Fixpoint dict_get {V : Type} (d : list (list string * V)) (k : list string)
    : option V :=
  match d with
  | [] => None
  | (k', v') :: d' => if decide (k = k') then Some v' else dict_get d' k
  end.

(** [args.groups] if it is given and not empty, else the groups of the
    configuration in file order. *)
Definition selected_groups (args_groups config_groups : list string)
    : list string :=
  match args_groups with
  | [] => config_groups
  | _ :: _ => args_groups
  end.

(** The group site is an external collaborator: [fetch group] stands for
    [get_new_tracking_pos_costs_maps_with_retry(group)].  The second
    dictionary is only looked up later, so it is a finite map; the union of
    finite maps prefers its left argument, as [update] prefers the new
    items. *)
Definition get_new_tracking_pos_costs_maps (config_groups : list string)
    (fetch : string → list (list string * cost) * gmap string cost)
    (args_groups : list string)
    : list (list string * cost) * gmap string cost :=
  foldl (λ acc group,
           (dict_update acc.1 (fetch group).1, (fetch group).2 ∪ acc.2))
        ([], ∅) (selected_groups args_groups config_groups).

(** *** [fill_cancellations] *)
Definition add_cancellations (cancellations_by_order : gmap string (list string))
    (items : list string) (order : string) : list string :=
  match cancellations_by_order !! order with
  | Some cancelled => items ++ cancelled
  | None => items
  end.

Definition fill_cancellations_cluster
    (cancellations_by_order : gmap string (list string)) cluster
    : Cluster cost :=
  let cluster := set_cancelled_items [] cluster in
  set_cancelled_items
    (foldl (add_cancellations cancellations_by_order) (cancelled_items cluster)
       (elements (orders cluster)))
    cluster.

Definition fill_cancellations
    (cancellations_by_order : gmap string (list string)) all_clusters
    : list (Cluster cost) :=
  fill_cancellations_cluster cancellations_by_order <$> all_clusters.

(** *** [fill_purchase_orders] *)
Definition add_purchase_order (tracking_to_po : gmap string string)
    (pos : gset string) (tracking : string) : gset string :=
  match tracking_to_po !! tracking with
  | Some po => pos ∪ {[po]}
  | None => pos
  end.

Definition fill_purchase_orders_cluster (tracking_to_po : gmap string string)
    (groups : list string) cluster : Cluster cost :=
  if skipped groups cluster then cluster
  else set_purchase_orders
         (foldl (add_purchase_order tracking_to_po) (purchase_orders cluster)
            (elements (trackings cluster)))
         cluster.

Definition fill_purchase_orders (tracking_to_po : gmap string string)
    (groups : list string) all_clusters : list (Cluster cost) :=
  fill_purchase_orders_cluster tracking_to_po groups <$> all_clusters.

(** *** Vocabulary for the statements about these functions *)

(** The identity sets of [c'] include those of [c]. *)
Definition grows (c c' : Cluster cost) : Prop :=
  trackings c ⊆ trackings c' ∧ orders c ⊆ orders c'
  ∧ purchase_orders c ⊆ purchase_orders c'.

(** The tuple's first tracking is mapped to cluster [i]. *)
Definition targets clusters_by_tracking (i : nat)
    (item : list string * cost) : Prop :=
  head item.1 ≫= (λ t, clusters_by_tracking !! t) = Some i.

#[global] Instance targets_dec clusters_by_tracking i item :
  Decision (targets clusters_by_tracking i item).
Proof. unfold targets. apply _. Defined.

(** The items whose cost [fill_costs_new] books on cluster [i], in order. *)
Definition items_booked_on clusters_by_tracking (i : nat)
    (trackings_to_cost : list (list string * cost)) : list (list string * cost) :=
  filter (targets clusters_by_tracking i) trackings_to_cost.

(** How many entries of the mapping refer to cluster [i]. *)
Definition entries_for clusters_by_tracking (i : nat) : nat :=
  length (filter (λ j, j = i) (mapping_values clusters_by_tracking)).

(** The prices that one visit of the last loop adds to a cluster. *)
Definition po_prices_of (po_to_cost : gmap string cost) cluster : list cost :=
  po_cost po_to_cost <$> elements (purchase_orders cluster).

(** What the three loops of [fill_costs_new] do to one cluster object, the
    loops over the mapping's values visiting it once per entry that refers to
    it: the visits of the first loop, then the items booked on it, then the
    visits of the last loop. *)
Definition cluster_after_costs clusters_by_tracking
    (trackings_to_cost : list (list string * cost))
    (po_to_cost : gmap string cost) (groups : list string) (i : nat) cluster
    : Cluster cost :=
  Nat.iter (entries_for clusters_by_tracking i) (add_po_costs po_to_cost)
    (foldl (λ c item, attribute item.2 item.1 c)
       (Nat.iter (entries_for clusters_by_tracking i) (reset_cluster groups)
          cluster)
       (items_booked_on clusters_by_tracking i trackings_to_cost)).

(** A cluster with the two fields that [fill_costs_new] writes blanked out:
    two clusters with the same image differ in those two fields at most. *)
Definition without_costs cluster : Cluster cost :=
  set_tracked_cost czero (set_non_reimbursed_trackings ∅ cluster).

(** *** The table rows of [get_usa_purchase_orders]

    The browser is an external collaborator.  A row is the list of the texts
    of its cells; [entries[2]] and [entries[3]] raise on a row that is too
    short ([None]).  [text.split(' ')[0]] is the text up to its first
    space. *)
Definition space : Ascii.ascii := Ascii.ascii_of_nat 32.

Fixpoint first_word (text : string) : string :=
  match text with
  | EmptyString => EmptyString
  | String a rest =>
      if Ascii.eqb a space then EmptyString else String a (first_word rest)
  end.

Definition scrape_row (result : gmap string string) (entries : list string)
    : option (gmap string string) :=
  match entries !! 2 with
  | None => None
  | Some tracking =>
      match entries !! 3 with
      | None => None
      | Some cell => Some (<[tracking := first_word cell]> result)
      end
  end.

(** [for row in rows: ... result[tracking] = purchase_order] *)
Fixpoint scrape_rows (result : gmap string string) (rows : list (list string))
    : option (gmap string string) :=
  match rows with
  | [] => Some result
  | entries :: rest =>
      match scrape_row result entries with
      | None => None
      | Some result' => scrape_rows result' rest
      end
  end.

(** The characters of a string. *)
Fixpoint chars (s : string) : list Ascii.ascii :=
  match s with
  | EmptyString => []
  | String a rest => a :: chars rest
  end.

End with_num.

End Reconcile.

(** ** Concrete data for the examples: costs in whole units *)

#[global] Instance Z_num : Num Z :=
  {| czero := 0%Z; cadd := Z.add; csub := Z.sub; cltb := Z.ltb |}.

Module Data.

(** A cluster with the given identity and nothing else. *)
Definition bare (ts os : gset string) : Cluster Z :=
  mkCluster ts os ∅ ∅ ""%string 0%Z 0%Z 0%Z ∅ [] false false false
    ""%string ""%string.

(** expected 100, tracked 40, no adjustment, certified by a human. *)
Definition certified : Cluster Z :=
  set_manual_override true
    (set_tracked_cost 40%Z (set_expected_cost 100%Z (bare {["A"]} {["o1"]}))).

(** The same cluster without the certification. *)
Definition uncertified : Cluster Z := set_manual_override false certified.

(** A verified and an unverified cluster. *)
Definition checked : Cluster Z := set_verified true (bare {["A"]} {["o1"]}).
Definition unchecked : Cluster Z := bare {["B"]} {["o2"]}.

(** A snapshot row for trackings A and B: all three review flags set, an
    adjustment of 5, a note, one purchase order, B not yet reimbursed and a
    tracked cost of 7. *)
Definition sheet_AB : Cluster Z :=
  set_notes "called the group"%string
    (set_adjustment 5%Z
       (set_tracked_cost 7%Z
          (set_non_reimbursed_trackings {["B"]}
             (set_purchase_orders {["P1"]}
                (set_below_cost true
                   (set_verified true
                      (set_manual_override true
                         (bare {["A"; "B"]} {["o1"]})))))))).

(** A snapshot row with blank notes that also touches tracking A. *)
Definition sheet_A_blank : Cluster Z :=
  set_notes "  "%string (set_adjustment 2%Z (bare {["A"]} {["o9"]})).

(** New clusters: the same identity as [sheet_AB], one that grew by C since
    the export, one that holds A only, and one unknown to the snapshot. *)
Definition new_AB : Cluster Z := bare {["A"; "B"]} {["o1"]}.
Definition new_ABC : Cluster Z := bare {["A"; "B"; "C"]} {["o1"]}.
Definition new_A : Cluster Z := bare {["A"]} {["o1"]}.
Definition new_D : Cluster Z :=
  set_tracked_cost 99%Z
    (set_non_reimbursed_trackings {["D"]}
       (set_purchase_orders {["OLD"]} (bare {["D"]} {["o4"]}))).

(** Three one-tracking clusters and one with two trackings. *)
Definition cl_A : Cluster Z := bare {["A"]} {["o1"]}.
Definition cl_B : Cluster Z := bare {["B"]} {["o2"]}.
Definition cl_C : Cluster Z := bare {["C"]} {["o3"]}.
Definition cl_BC : Cluster Z := bare {["B"; "C"]} {["o2"]}.

(** Carrier tuples: A ships with B; C ships with B; A ships with a
    tracking D that no cluster knows. *)
Definition tuple_AB : list string * Z := (["A"; "B"]%string, 50%Z).
Definition tuple_CB : list string * Z := (["C"; "B"]%string, 7%Z).
Definition tuple_AD : list string * Z := (["A"; "D"]%string, 5%Z).

(** A cluster with two trackings and one purchase order, priced at 10. *)
Definition cl_AB_P : Cluster Z :=
  set_purchase_orders {["P"]} (bare {["A"; "B"]} {["o1"]}).
Definition po_prices : gmap string Z := {["P" := 10%Z]}.

(** Order lookups: O1 costs 10, O2 costs 20, every other lookup fails. *)
Definition order_lookup (order_id : string) : option (Reconcile.OrderInfo Z) :=
  if decide (order_id = "O1"%string) then Some (Reconcile.mkOrderInfo None 10%Z)
  else if decide (order_id = "O2"%string)
       then Some (Reconcile.mkOrderInfo None 20%Z)
       else None.

(** The spec's scenario: orders O1 and O2 and one tracking tA; a third
    order O3 cannot be looked up. *)
Definition cl_scenario : Cluster Z := bare {["tA"]} {["O1"; "O2"; "O3"]}.
Definition tuple_tA : list string * Z := (["tA"]%string, 25%Z).

(** Stores, each with the mapping that [map_clusters_by_tracking] builds. *)
Definition store_ABC : list (Cluster Z) := [cl_A; cl_B; cl_C].
Definition store_A_BC : list (Cluster Z) := [cl_A; cl_BC].
Definition start (all_clusters : list (Cluster Z))
    : list (Cluster Z) * gmap string nat :=
  (all_clusters, Reconcile.map_clusters_by_tracking all_clusters).


(** A second verified cluster. *)
Definition checked_too : Cluster Z := set_verified true (bare {["B"]} {["o2"]}).

(** Order lookups with email ids: O1 has one, O2 has an empty one, every
    other lookup fails. *)
Definition order_lookup_mail (order_id : string)
    : option (Reconcile.OrderInfo Z) :=
  if decide (order_id = "O1"%string)
  then Some (Reconcile.mkOrderInfo (Some "m1"%string) 10%Z)
  else if decide (order_id = "O2"%string)
       then Some (Reconcile.mkOrderInfo (Some EmptyString) 20%Z)
       else None.

(** Two tuples without a common tracking. *)
Definition tuple_C : list string * Z := (["C"]%string, 7%Z).
Definition tuples_apart : list (list string * Z) := [tuple_AB; tuple_C].

(** Cancellations for order O1 only. *)
Definition cancellations : gmap string (list string) :=
  {["O1"%string := ["blue mug"%string]]}.

(** The scrape knows the purchase order of tracking A. *)
Definition scraped : gmap string string := {["A"%string := "PO7"%string]}.

(** Two groups that both report the tuple (A, B) and the purchase order P. *)
Definition fetch_group (group : string)
    : list (list string * Z) * gmap string Z :=
  if decide (group = "usa"%string)
  then ([(["A"; "B"]%string, 50%Z)], {["P"%string := 10%Z]})
  else if decide (group = "mys"%string)
       then ([(["C"]%string, 7%Z); (["A"; "B"]%string, 55%Z)],
             {["P"%string := 12%Z]})
       else ([], ∅).
End Data.

(** * Properties of reconciliation_uploader.py *)

Module UploaderSpec.
Import Uploader.

(** ** Blank notes *)

Lemma rstrip_blank s : PyStr.rstrip s = EmptyString ↔ PyStr.blank s = true.
Proof.
  induction s as [|a s IH]; simpl; [done|].
  destruct (PyStr.rstrip s) eqn:Hr.
  - destruct (PyStr.isspace a); simpl.
    + split; [intros _; by apply IH | done].
    + split; [done | intros [=]].
  - split; [done|]. intros [_ Hb]%andb_true_iff.
    apply IH in Hb. done.
Qed.

Lemma lstrip_blank s : PyStr.blank (PyStr.lstrip s) = PyStr.blank s.
Proof.
  induction s as [|a s IH]; simpl; [done|].
  destruct (PyStr.isspace a) eqn:Ha; simpl; [done|]. by rewrite Ha.
Qed.

(** [notes.strip()] is true in a condition exactly when the notes are not
    blank. *)
Lemma strip_truthy s : PyStr.truthy (PyStr.strip s) = negb (PyStr.blank s).
Proof.
  unfold PyStr.strip. rewrite <- (lstrip_blank s).
  destruct (PyStr.rstrip (PyStr.lstrip s)) eqn:Hr; simpl.
  - apply rstrip_blank in Hr. by rewrite Hr.
  - destruct (PyStr.blank (PyStr.lstrip s)) eqn:Hb; [|done].
    apply rstrip_blank in Hb. congruence.
Qed.

Section with_num.
Context `{Num cost}.
Implicit Types cluster : Cluster cost.

(** ** Diff and ordering *)

(** C2: the reported diff is [tracked_cost + adjustment - expected_cost],
    except that a cluster whose [manual_override] flag is set reports
    exactly zero whatever its three cost fields are. *)
Theorem total_diff_spec cluster :
  (manual_override cluster = true → total_diff cluster = czero) ∧
  (manual_override cluster = false →
     total_diff cluster
     = csub (cadd (tracked_cost cluster) (adjustment cluster))
            (expected_cost cluster)).
Proof.
  unfold total_diff. split; intros ->; reflexivity.
Qed.

Lemma compare_range (one two : Cluster cost) :
  compare one two ∈ [(-1)%Z; 0%Z; 1%Z].
Proof.
  unfold compare.
  repeat match goal with |- context [if ?b then _ else _] => destruct b end;
    set_solver.
Qed.

(** C4, as the code has it: when the second cluster is verified the
    comparator answers -1 whatever the other fields are, which in the
    [cmp] convention of [cmp_to_key] orders the first cluster before the
    second, never after it; sorting the pair (verified, other) moves the
    verified cluster behind the other one. *)
Theorem compare_second_verified (one two : Cluster cost) :
  verified two = true →
  compare one two = (-1)%Z ∧ sorts_before one two ∧ ¬ sorts_after one two
  ∧ sort_pair two one = [one; two].
Proof.
  intros Hv.
  assert (Hc : compare one two = (-1)%Z) by (unfold compare; by rewrite Hv).
  unfold sorts_before, sorts_after, sort_pair, key_lt. rewrite Hc.
  split; [done|]. split; [lia|]. split; [lia|done].
Qed.

(** ** Snapshot import *)

Lemma elem_of_find_candidate_downloads cluster downloaded d :
  d ∈ find_candidate_downloads cluster downloaded
  ↔ d ∈ downloaded ∧ ∃ t, t ∈ trackings d ∧ t ∈ trackings cluster.
Proof.
  unfold find_candidate_downloads. rewrite list_elem_of_filter.
  split.
  - intros [Hne Hd]. split; [done|].
    apply set_choose_L in Hne as [t Ht]. exists t. set_solver.
  - intros [Hd (t & ? & ?)]. split; [set_solver | done].
Qed.

Lemma flags_source_Some cluster cands s :
  flags_source cluster cands = Some s ↔ sole_exact_match cluster cands s.
Proof.
  unfold flags_source, sole_exact_match.
  destruct cands as [|d [|d' cands]]; try (split; [done | by intros [[=] _]]).
  destruct (bool_decide (trackings d = trackings cluster)) eqn:Ht;
    destruct (bool_decide (orders d = orders cluster)) eqn:Ho; simpl;
    try apply bool_decide_eq_true in Ht; try apply bool_decide_eq_true in Ho;
    try apply bool_decide_eq_false in Ht; try apply bool_decide_eq_false in Ho.
  - split; [intros [= ->]; done | intros ([= ->] & _); done].
  - split; [done | intros ([= ->] & _ & ?); done].
  - split; [done | intros ([= ->] & ? & _); done].
  - split; [done | intros ([= ->] & ? & _); done].
Qed.

Lemma fill_adjustments_cluster_fields downloaded cluster :
  let cands := find_candidate_downloads cluster downloaded in
  let cluster' := fill_adjustments_cluster downloaded cluster in
  adjustment cluster' = py_sum (adjustment <$> cands)
  ∧ notes cluster'
    = PyStr.join "; "
        (filter (λ n, PyStr.blank n = false) (notes <$> cands))
  ∧ trackings cluster' = trackings cluster
  ∧ orders cluster' = orders cluster.
Proof.
  intros cands cluster'. subst cluster'. unfold fill_adjustments_cluster.
  fold cands.
  assert (Hn : notes <$> filter (λ c, PyStr.truthy (PyStr.strip (notes c))) cands
               = filter (λ n, PyStr.blank n = false) (notes <$> cands)).
  { induction cands as [|c cands' IH]; [done|].
    rewrite fmap_cons, !filter_cons, <- IH.
    pose proof (strip_truthy (notes c)) as Hc.
    destruct (PyStr.blank (notes c)); simpl in Hc;
      repeat case_decide; try done; rewrite Hc in *; done. }
  rewrite Hn.
  destruct (flags_source _ cands); simpl; done.
Qed.

Lemma fill_adjustments_cluster_flags downloaded cluster :
  let cands := find_candidate_downloads cluster downloaded in
  let cluster' := fill_adjustments_cluster downloaded cluster in
  (∀ s, sole_exact_match cluster cands s → flags cluster' = flags s)
  ∧ ((¬ ∃ s, sole_exact_match cluster cands s) →
       flags cluster' = flags cluster).
Proof.
  intros cands cluster'. subst cluster'. unfold fill_adjustments_cluster.
  fold cands.
  set (c1 := set_notes _ (set_adjustment _ cluster)).
  assert (Hsrc : ∀ s, flags_source c1 cands = Some s
                      ↔ sole_exact_match cluster cands s).
  { intros s. rewrite flags_source_Some. done. }
  destruct (flags_source c1 cands) as [s0|].
  - pose proof (proj1 (Hsrc s0) eq_refl) as Hs. split.
    + intros s Hm. destruct Hs as [Hs _], Hm as [Hm _].
      rewrite Hs in Hm. by injection Hm as ->.
    + intros Hno. destruct Hno. by exists s0.
  - split; [|done]. intros s Hm%Hsrc. congruence.
Qed.


(** ** [override_pos_and_costs] *)

Lemma foldl_override_acc (cands : list (Cluster cost)) pos nrt total :
  foldl override_acc (pos, nrt, total) cands
  = (pos ∪ ⋃ (purchase_orders <$> cands),
     nrt ∪ ⋃ (non_reimbursed_trackings <$> cands),
     foldl cadd total (tracked_cost <$> cands)).
Proof.
  revert pos nrt total. induction cands as [|c cands IH]; intros; simpl.
  - by rewrite !(right_id_L ∅ (∪)).
  - rewrite IH. by rewrite !(assoc_L (∪)).
Qed.

Lemma override_cluster_fields downloaded cluster :
  let cands := find_candidate_downloads cluster downloaded in
  let cluster' := override_cluster downloaded cluster in
  purchase_orders cluster' = ⋃ (purchase_orders <$> cands)
  ∧ non_reimbursed_trackings cluster'
    = ⋃ (non_reimbursed_trackings <$> cands)
  ∧ tracked_cost cluster' = py_sum (tracked_cost <$> cands)
  ∧ trackings cluster' = trackings cluster
  ∧ orders cluster' = orders cluster
  ∧ group cluster' = group cluster.
Proof.
  intros cands cluster'. subst cluster'. unfold override_cluster.
  fold cands. rewrite foldl_override_acc. simpl.
  by rewrite !(left_id_L ∅ (∪)).
Qed.


End with_num.
End UploaderSpec.

Module UploaderExamples.
Import Uploader UploaderSpec.

(** The spec's example of diff suppression: expected 100, tracked 40,
    adjustment 0 and the override set give 0; without the override the
    same costs give -60. *)
Lemma total_diff_spec_witness :
  total_diff Data.certified = 0%Z ∧ total_diff Data.uncertified = (-60)%Z.
Proof.
  split.
  - exact (proj1 (total_diff_spec Data.certified) eq_refl).
  - exact (proj2 (total_diff_spec Data.uncertified) eq_refl).
Defined.

(** C4 as the claim words it fails: the second cluster is verified and the
    first is not placed after it. *)
Lemma compare_second_verified_not_after :
  verified Data.checked = true ∧ ¬ sorts_after Data.unchecked Data.checked.
Proof.
  split; [reflexivity|]. unfold sorts_after. vm_compute. intros [=].
Qed.

Lemma compare_second_verified_witness :
  compare Data.unchecked Data.checked = (-1)%Z
  ∧ sorts_before Data.unchecked Data.checked
  ∧ ¬ sorts_after Data.unchecked Data.checked
  ∧ sort_pair Data.checked Data.unchecked = [Data.unchecked; Data.checked].
Proof.
  apply (compare_second_verified Data.unchecked Data.checked). reflexivity.
Defined.

(** Whichever way round the two are handed to the sort, the verified
    cluster comes out last. *)
Example sort_pair_verified_last :
  sort_pair Data.checked Data.unchecked = [Data.unchecked; Data.checked]
  ∧ sort_pair Data.unchecked Data.checked = [Data.unchecked; Data.checked].
Proof. split; vm_compute; reflexivity. Qed.


(** The spec's override-safety scenario: the snapshot row has trackings
    A and B, the new cluster has grown to A, B and C.  The flags are not
    imported; the adjustment and the notes are. *)
Example override_safety :
  let cluster' := fill_adjustments_cluster [Data.sheet_AB] Data.new_ABC in
  flags cluster' = (false, false, false)
  ∧ adjustment cluster' = 5%Z
  ∧ notes cluster' = "called the group"%string.
Proof. vm_compute. done. Qed.

(** Two candidates: nothing is certified, adjustments add up and the blank
    note is dropped. *)
Example two_candidates :
  let cluster' :=
    fill_adjustments_cluster [Data.sheet_AB; Data.sheet_A_blank] Data.new_AB in
  flags cluster' = (false, false, false)
  ∧ adjustment cluster' = 7%Z
  ∧ notes cluster' = "called the group"%string.
Proof. vm_compute. done. Qed.


End UploaderExamples.

(** * Properties of reconcile.py *)

Module ReconcileSpec.
Import Reconcile.

Section with_num.
Context `{Num cost}.
Implicit Types cluster : Cluster cost.
Implicit Types all_clusters all : list (Cluster cost).
Implicit Types m : gmap string nat.
Implicit Types get_order_info : string → option (OrderInfo cost).

(** ** Expected cost *)

Lemma foldl_add_order_cost get_order_info (acc : cost) order_ids :
  foldl (add_order_cost get_order_info) acc order_ids
  = foldl cadd acc (successful_costs get_order_info order_ids).
Proof.
  revert acc. unfold successful_costs.
  induction order_ids as [|o ids IH]; intros acc; simpl; [done|].
  unfold add_order_cost at 2.
  destruct (get_order_info o); simpl; apply IH.
Qed.

Lemma successful_costs_skip get_order_info l1 o l2 :
  get_order_info o = None →
  successful_costs get_order_info (l1 ++ o :: l2)
  = successful_costs get_order_info (l1 ++ l2).
Proof.
  intros Ho. unfold successful_costs.
  rewrite !omap_app. simpl. by rewrite Ho.
Qed.

(** C8: [fill_costs] never aborts: it returns every cluster, and the
    expected cost of each is the sum, in iteration order, of the costs of
    exactly those of its orders whose lookup succeeds.  An order whose
    lookup fails adds nothing and the orders after it still count. *)
Theorem fill_costs_expected get_order_info all_clusters i cluster :
  all_clusters !! i = Some cluster →
  length (fill_costs get_order_info all_clusters) = length all_clusters
  ∧ ∃ cluster',
      fill_costs get_order_info all_clusters !! i = Some cluster'
      ∧ expected_cost cluster'
        = py_sum (successful_costs get_order_info
                    (elements (orders cluster)))
      ∧ (∀ info, info ∈ omap get_order_info (elements (orders cluster))
                 ↔ ∃ o, o ∈ orders cluster ∧ get_order_info o = Some info)
      ∧ (∀ l1 o l2, elements (orders cluster) = l1 ++ o :: l2 →
           get_order_info o = None →
           expected_cost cluster'
           = py_sum (successful_costs get_order_info (l1 ++ l2))).
Proof.
  intros Hi. unfold fill_costs. split; [by rewrite length_fmap|].
  exists (fill_costs_cluster get_order_info cluster).
  split; [by rewrite list_lookup_fmap, Hi|].
  assert (He : expected_cost (fill_costs_cluster get_order_info cluster)
               = py_sum (successful_costs get_order_info
                           (elements (orders cluster)))).
  { unfold fill_costs_cluster. simpl. apply foldl_add_order_cost. }
  split; [exact He|]. split.
  - intros info. rewrite list_elem_of_omap.
    split; intros (o & Ho & Hg); exists o; (split; [|done]);
      by apply elem_of_elements.
  - intros l1 o l2 Hl Ho. rewrite He, Hl.
    by rewrite successful_costs_skip.
Qed.

(** ** The mapping *)

Lemma lookup_point_all i m ts t :
  point_all i m ts !! t = if decide (t ∈ ts) then Some i else m !! t.
Proof.
  revert m. induction ts as [|t0 ts IH]; intros m.
  - cbn [point_all foldl]. case_decide; [set_solver | done].
  - change (point_all i m (t0 :: ts)) with (point_all i (<[t0:=i]> m) ts).
    rewrite IH. destruct (decide (t = t0)) as [->|Hne].
    + rewrite lookup_insert_eq.
      destruct (decide (t0 ∈ ts)), (decide (t0 ∈ t0 :: ts)); set_solver.
    + rewrite lookup_insert_ne by done.
      destruct (decide (t ∈ ts)) as [Hin|Hni].
      * rewrite decide_True; [done|]. apply elem_of_cons. by right.
      * rewrite decide_False; [done|]. by intros [?|?]%elem_of_cons.
Qed.

Lemma lookup_map_clusters_from i all m t j :
  map_clusters_from i all m !! t = Some j →
  (m !! t = Some j ∧ ∀ c, c ∈ all → t ∉ trackings c)
  ∨ ∃ k c, all !! k = Some c ∧ j = i + k ∧ t ∈ trackings c.
Proof.
  revert i m. induction all as [|c all IH]; intros i m; simpl.
  - intros Hm. left. split; [done | set_solver].
  - intros Hm. apply IH in Hm as [[Hm Hno] | (k & c' & Hk & -> & Ht)].
    + rewrite lookup_point_all in Hm. case_decide as Hin.
      * right. exists 0, c. simplify_eq. split; [done|].
        split; [lia | by apply elem_of_elements].
      * left. split; [done|]. intros c' [->|Hc']%elem_of_cons; [|by apply Hno].
        by rewrite elem_of_elements in Hin.
    + right. exists (S k), c'. split; [done|]. split; [lia | done].
Qed.

Lemma map_clusters_from_is_Some i all m t :
  (is_Some (m !! t) ∨ ∃ c, c ∈ all ∧ t ∈ trackings c) →
  is_Some (map_clusters_from i all m !! t).
Proof.
  revert i m. induction all as [|c all IH]; intros i m; simpl.
  - intros [Hm | (c & Hc & _)]; [done | set_solver].
  - intros Hor. apply IH.
    destruct (decide (t ∈ trackings c)) as [Hin|Hni].
    + left. rewrite lookup_point_all, decide_True; [done|].
      by apply elem_of_elements.
    + destruct Hor as [Hm | (c' & [->|Hc']%elem_of_cons & Ht)];
        [|done|right; by exists c'].
      left. rewrite lookup_point_all. by case_decide.
Qed.

(** The mapping built by [map_clusters_by_tracking] sends a tracking to a
    cluster that contains it, and knows every tracking of every cluster. *)
Lemma map_clusters_by_tracking_inv all_clusters :
  merge_inv (dom (map_clusters_by_tracking all_clusters))
            (all_clusters, map_clusters_by_tracking all_clusters).
Proof.
  unfold merge_inv, map_clusters_by_tracking; simpl.
  split; [|split].
  - intros t i Hm.
    apply lookup_map_clusters_from in Hm as [[Hm _] | (k & c & Hk & -> & _)];
      [done|]. simpl. by eapply lookup_lt_Some.
  - intros t [i Hm]%elem_of_dom. exists i.
    pose proof Hm as Hm'.
    apply lookup_map_clusters_from in Hm' as [[Hm' _] | (k & c & Hk & -> & Ht)];
      [done|]. by exists c.
  - intros i c Hi t Ht. apply elem_of_dom.
    apply map_clusters_from_is_Some. right. exists c.
    split; [|done]. by eapply list_elem_of_lookup_2.
Qed.

(** ** One absorption *)

Lemma absorb_length f all o : length (absorb f all o) = length all.
Proof.
  unfold absorb. destruct (all !! f), (all !! o); try done.
  destruct (already_part _ _); [done | by rewrite length_insert].
Qed.

Lemma absorb_other f all o i : i ≠ f → absorb f all o !! i = all !! i.
Proof.
  intros Hne. unfold absorb. destruct (all !! f), (all !! o); try done.
  destruct (already_part _ _); [done | by rewrite list_lookup_insert_ne].
Qed.


Lemma unioned_trackings : unioned (@trackings cost).
Proof. intros a b. reflexivity. Qed.

Lemma tested_trackings : tested (@trackings cost).
Proof.
  intros a b [Ht _]%andb_true_iff. by apply bool_decide_eq_true in Ht.
Qed.

Lemma absorb_target sel f all o fc :
  unioned sel → all !! f = Some fc →
  ∃ fc1, absorb f all o !! f = Some fc1
    ∧ sel fc ⊆ sel fc1
    ∧ (∀ x, x ∈ sel fc1 →
         x ∈ sel fc ∨ ∃ oc, all !! o = Some oc ∧ x ∈ sel oc)
    ∧ (tested sel → ∀ oc, all !! o = Some oc → sel oc ⊆ sel fc1).
Proof.
  intros Hsel Hf. unfold absorb. rewrite Hf.
  destruct (all !! o) as [oc|] eqn:Ho.
  - destruct (already_part fc oc) eqn:Hp.
    + exists fc. split; [done|]. split; [done|]. split; [by left|].
      intros Htest oc' [= <-]. by apply Htest.
    + exists (merge_with fc oc).
      split. { apply list_lookup_insert_eq. by eapply lookup_lt_Some. }
      rewrite !Hsel. split; [set_solver|]. split.
      * intros x [?|?]%elem_of_union; [by left | right; by exists oc].
      * intros _ oc' [= <-]. set_solver.
  - exists fc. split; [done|]. split; [done|]. split; [by left | done].
Qed.

(** ** The loop over the other clusters of a tuple *)

Lemma foldl_absorb_length f others all :
  length (foldl (absorb f) all others) = length all.
Proof.
  revert all. induction others as [|o others IH]; intros all; simpl; [done|].
  by rewrite IH, absorb_length.
Qed.

Lemma foldl_absorb_other f others all i :
  i ≠ f → foldl (absorb f) all others !! i = all !! i.
Proof.
  intros Hne. revert all.
  induction others as [|o others IH]; intros all; simpl; [done|].
  by rewrite IH, absorb_other.
Qed.

Lemma foldl_absorb_target sel f others all fc :
  unioned sel → all !! f = Some fc →
  ∃ fc', foldl (absorb f) all others !! f = Some fc'
    ∧ sel fc ⊆ sel fc'
    ∧ (∀ x, x ∈ sel fc' →
         x ∈ sel fc ∨ ∃ o oc, o ∈ others ∧ all !! o = Some oc ∧ x ∈ sel oc)
    ∧ (tested sel →
         ∀ o oc, o ∈ others → all !! o = Some oc → sel oc ⊆ sel fc').
Proof.
  intros Hsel. revert all fc.
  induction others as [|o others IH]; intros all fc Hf; simpl.
  - exists fc. split; [done|]. split; [done|]. split; [by left|].
    intros _ o oc Ho. by apply elem_of_nil in Ho.
  - destruct (absorb_target sel f all o fc Hsel Hf)
      as (fc1 & Hf1 & Hmono1 & Hup1 & Hlow1).
    destruct (IH _ _ Hf1) as (fc' & Hf' & Hmono & Hup & Hlow).
    exists fc'. split; [done|]. split; [set_solver|]. split.
    + intros x Hx. apply Hup in Hx as [Hx | (o' & oc' & Ho' & Hl' & Hx)].
      * apply Hup1 in Hx as [Hx | (oc & Ho & Hx)]; [by left|].
        right. exists o, oc. split; [by left | done].
      * destruct (decide (o' = f)) as [->|Hne].
        -- rewrite Hf1 in Hl'. injection Hl' as <-.
           apply Hup1 in Hx as [Hx | (oc & Ho & Hx)]; [by left|].
           right. exists o, oc. split; [by left | done].
        -- rewrite absorb_other in Hl' by done.
           right. exists o', oc'. split; [by right | done].
    + intros Htest o' oc' [->|Ho']%elem_of_cons Hl'.
      * specialize (Hlow1 Htest _ Hl'). set_solver.
      * destruct (decide (o' = f)) as [->|Hne].
        -- rewrite Hf in Hl'. injection Hl' as <-. set_solver.
        -- apply (Hlow Htest o'); [done|]. by rewrite absorb_other.
Qed.

Lemma elem_of_cluster_list m tuple i :
  i ∈ cluster_list m tuple ↔ ∃ t, t ∈ tuple ∧ m !! t = Some i.
Proof. unfold cluster_list. apply list_elem_of_omap. Qed.


Lemma cluster_list_valid all m tuple i :
  refs_valid all m → i ∈ cluster_list m tuple → is_Some (all !! i).
Proof.
  intros Hv (t & _ & Ht)%elem_of_cluster_list.
  apply lookup_lt_is_Some. by eapply Hv.
Qed.


(** ** The whole merge *)

Lemma merge_tuple_inv known (st : list (Cluster cost) * gmap string nat)
    tuple :
  merge_inv known st → merge_inv known (merge_tuple st tuple).
Proof.
  destruct st as [all m]. intros (Hv & Hknown & Hsub). unfold merge_tuple.
  simpl in *. case_decide; [done|].
  destruct (cluster_list m tuple) as [|first others] eqn:Hcl; [done|].
  assert (Hvalid : ∀ i, i ∈ first :: others → is_Some (all !! i)).
  { intros i Hi. apply (cluster_list_valid all m tuple); [done|].
    by rewrite Hcl. }
  destruct (Hvalid first) as [fc Hfc]; [by left|].
  destruct (foldl_absorb_target trackings first others all fc
              unioned_trackings Hfc) as (fc' & Hfc' & Htm & Htu & Htl).
  specialize (Htl tested_trackings).
  split; [|split]; simpl.
  - intros t i. rewrite lookup_point_all, foldl_absorb_length.
    case_decide; [|by apply Hv]. intros [= <-]. by eapply lookup_lt_Some.
  - intros t Ht. destruct (Hknown t Ht) as (i & c & Hm & Hi & Hin).
    rewrite lookup_point_all. case_decide as Htup.
    + exists first, fc'. split; [done|]. split; [done|].
      assert (Hmem : i ∈ first :: others).
      { rewrite <- Hcl. apply elem_of_cluster_list. by exists t. }
      apply elem_of_cons in Hmem as [->|Hmem].
      * rewrite Hfc in Hi. injection Hi as <-. by apply Htm.
      * by apply (Htl i c).
    + destruct (decide (i = first)) as [->|Hne].
      * exists first, fc'. split; [done|]. split; [done|].
        rewrite Hfc in Hi. injection Hi as <-. by apply Htm.
      * exists i, c. split; [done|]. split; [|done].
        by rewrite foldl_absorb_other.
  - intros i c Hi. destruct (decide (i = first)) as [->|Hne].
    + rewrite Hfc' in Hi. injection Hi as <-.
      intros x [Hx | (o & oc & _ & Ho & Hx)]%Htu.
      * by apply (Hsub first fc).
      * by apply (Hsub o oc).
    + rewrite foldl_absorb_other in Hi by done. by apply (Hsub i c).
Qed.

Lemma merge_by_trackings_tuples_inv known
    (st : list (Cluster cost) * gmap string nat)
    (trackings_to_cost : list (list string * cost)) :
  merge_inv known st →
  merge_inv known (merge_by_trackings_tuples st trackings_to_cost).
Proof.
  unfold merge_by_trackings_tuples. revert st.
  induction trackings_to_cost as [|item rest IH]; intros st Hinv; simpl;
    [done|].
  by apply IH, merge_tuple_inv.
Qed.

(** C5, as far as the code goes: after [merge_by_trackings_tuples] has
    run on the mapping built by [map_clusters_by_tracking], a tracking
    that had a mapping entry before still has exactly one, and the cluster
    it names contains the tracking.  A tracking that had no entry before
    (it can only have entered through a tuple) is contained in no cluster
    at all, whatever it is mapped to.  Every mapping entry names a cluster
    of the store. *)
Theorem merge_keeps_known_trackings all_clusters
    (trackings_to_cost : list (list string * cost)) t :
  let before := map_clusters_by_tracking all_clusters in
  let st := merge_by_trackings_tuples (all_clusters, before)
              trackings_to_cost in
  (is_Some (before !! t) →
     ∃ i c, st.2 !! t = Some i ∧ st.1 !! i = Some c ∧ t ∈ trackings c
            ∧ ∀ j, st.2 !! t = Some j → j = i)
  ∧ (before !! t = None →
       ∀ j c, st.1 !! j = Some c → t ∉ trackings c)
  ∧ (∀ i, st.2 !! t = Some i → is_Some (st.1 !! i)).
Proof.
  intros before st.
  pose proof (merge_by_trackings_tuples_inv _ _ trackings_to_cost
                (map_clusters_by_tracking_inv all_clusters))
    as (Hv & Hknown & Hsub).
  fold before in Hv, Hknown, Hsub. fold st in Hv, Hknown, Hsub.
  split; [|split].
  - intros Hin%elem_of_dom. destruct (Hknown t Hin) as (i & c & Hm & Hi & Ht).
    exists i, c. split; [done|]. split; [done|]. split; [done|].
    intros j Hj. congruence.
  - intros Hnone%not_elem_of_dom j c Hj Ht. apply Hnone.
    by apply (Hsub j c).
  - intros i Hi. apply lookup_lt_is_Some. by eapply Hv.
Qed.

(** ** Running the merge again *)

Lemma already_part_refl (c : Cluster cost) : already_part c c = true.
Proof.
  unfold already_part. apply andb_true_iff.
  split; by apply bool_decide_eq_true.
Qed.

Lemma absorb_self f all : absorb f all f = all.
Proof.
  unfold absorb. destruct (all !! f) as [c|]; [|done].
  by rewrite already_part_refl.
Qed.

Lemma cluster_list_unmapped m tuple :
  cluster_list m tuple = [] ↔ ∀ t, t ∈ tuple → m !! t = None.
Proof.
  split.
  - intros Hnil t Ht. destruct (m !! t) as [i|] eqn:Hm; [|done].
    assert (Hi : i ∈ cluster_list m tuple)
      by (apply elem_of_cluster_list; by exists t).
    rewrite Hnil in Hi. by apply elem_of_nil in Hi.
  - unfold cluster_list. induction tuple as [|t tuple IH]; intros Hall; [done|].
    simpl. rewrite (Hall t) by (by left). simpl.
    apply IH. intros t' Ht'. apply Hall. by right.
Qed.

Lemma cluster_list_same m tuple f :
  (∀ t, t ∈ tuple → m !! t = Some f) →
  cluster_list m tuple = replicate (length tuple) f.
Proof.
  unfold cluster_list. induction tuple as [|t tuple IH]; intros Hall; [done|].
  simpl. rewrite (Hall t) by (by left). simpl. f_equal.
  apply IH. intros t' Ht'. apply Hall. by right.
Qed.

Lemma merge_tuple_settled all m tuple :
  settled m tuple → merge_tuple (all, m) tuple = (all, m).
Proof.
  intros Hs. unfold merge_tuple. simpl. case_decide; [done|].
  destruct Hs as [Hlen | [Hnone | [f Hsame]]]; [done| |].
  - apply cluster_list_unmapped in Hnone. by rewrite Hnone.
  - rewrite (cluster_list_same m tuple f Hsame).
    destruct tuple as [|t tuple]; [done|]. cbn [length replicate]. f_equal.
    + cbn [fst]. induction (length tuple) as [|n IH]; [done|].
      cbn [replicate foldl]. by rewrite absorb_self.
    + cbn [snd]. apply map_eq. intros t'. rewrite lookup_point_all.
      case_decide as Hin; [|done]. symmetry. by apply Hsame.
Qed.

Lemma merge_tuple_settles all m tuple :
  settled (merge_tuple (all, m) tuple).2 tuple.
Proof.
  unfold merge_tuple, settled. simpl. case_decide; [by left|].
  destruct (cluster_list m tuple) as [|first others] eqn:Hcl; simpl.
  - right. left. by apply cluster_list_unmapped.
  - right. right. exists first. intros t Ht.
    by rewrite lookup_point_all, decide_True.
Qed.

Lemma merge_tuple_lookup_outside all m tuple t :
  t ∉ tuple → (merge_tuple (all, m) tuple).2 !! t = m !! t.
Proof.
  intros Ht. unfold merge_tuple. simpl. case_decide; [done|].
  destruct (cluster_list m tuple); [done|]. simpl.
  by rewrite lookup_point_all, decide_False.
Qed.

Lemma merge_tuple_keeps_settled all m tuple other :
  (∀ t, t ∈ tuple → t ∉ other) → settled m tuple →
  settled (merge_tuple (all, m) other).2 tuple.
Proof.
  intros Hdis Hs. unfold settled in *.
  destruct Hs as [Hlen | [Hnone | [f Hsame]]]; [by left| |].
  - right. left. intros t Ht.
    rewrite merge_tuple_lookup_outside by (by apply Hdis). by apply Hnone.
  - right. right. exists f. intros t Ht.
    rewrite merge_tuple_lookup_outside by (by apply Hdis). by apply Hsame.
Qed.

Lemma merge_keeps_settled (st : list (Cluster cost) * gmap string nat)
    (rest : list (list string * cost)) tuple :
  Forall (λ other, ∀ t, t ∈ tuple → t ∉ other) rest.*1 →
  settled st.2 tuple →
  settled (merge_by_trackings_tuples st rest).2 tuple.
Proof.
  unfold merge_by_trackings_tuples. revert st.
  induction rest as [|[other c] rest IH]; intros [all m] Hdis Hs; [done|].
  simpl in *. apply Forall_cons in Hdis as [Hother Hrest].
  apply IH; [done|]. by apply merge_tuple_keeps_settled.
Qed.

Lemma merge_settles_all (st : list (Cluster cost) * gmap string nat)
    (trackings_to_cost : list (list string * cost)) :
  pairwise_disjoint trackings_to_cost.*1 →
  Forall (settled (merge_by_trackings_tuples st trackings_to_cost).2)
         trackings_to_cost.*1.
Proof.
  revert st. induction trackings_to_cost as [|[tuple c] rest IH];
    intros [all m]; simpl; [done|].
  intros [Hdis Hrest]. apply Forall_cons. split; [|by apply IH].
  apply (merge_keeps_settled (merge_tuple (all, m) tuple) rest tuple Hdis).
  apply merge_tuple_settles.
Qed.

Lemma merge_settled_noop (st : list (Cluster cost) * gmap string nat)
    (trackings_to_cost : list (list string * cost)) :
  Forall (settled st.2) trackings_to_cost.*1 →
  merge_by_trackings_tuples st trackings_to_cost = st.
Proof.
  unfold merge_by_trackings_tuples. destruct st as [all m].
  induction trackings_to_cost as [|[tuple c] rest IH]; simpl; [done|].
  intros [Hs Hrest]%Forall_cons. rewrite merge_tuple_settled by done.
  by apply IH.
Qed.

(** When no tracking occurs in two tuples, a second run over the same tuples
    changes neither the store nor the mapping.  With overlapping tuples this
    fails, see the examples at the end. *)
Lemma merge_idempotent_disjoint (st : list (Cluster cost) * gmap string nat)
    (trackings_to_cost : list (list string * cost)) :
  pairwise_disjoint trackings_to_cost.*1 →
  merge_by_trackings_tuples
    (merge_by_trackings_tuples st trackings_to_cost) trackings_to_cost
  = merge_by_trackings_tuples st trackings_to_cost.
Proof.
  intros Hdis. apply merge_settled_noop. by apply merge_settles_all.
Qed.

(** ** Tracked cost *)

Lemma remove_reimbursed_spec (s : gset string) tuple :
  remove_reimbursed s tuple = s ∖ list_to_set tuple.
Proof.
  unfold remove_reimbursed. revert s.
  induction tuple as [|t tuple IH]; intros s; cbn [foldl].
  - by rewrite list_to_set_nil, difference_empty_L.
  - rewrite IH, list_to_set_cons. case_bool_decide as Ht.
    + by rewrite difference_difference_l_L.
    + apply set_eq. intros x.
      rewrite !elem_of_difference, elem_of_union, elem_of_singleton.
      split; intros [Hx Hn]; (split; [done|]).
      * intros [->|?]; done.
      * intros ?. apply Hn. by right.
Qed.

(** Updating clusters in place, one index after the other. *)
Lemma foldl_alter_length (f : Cluster cost → Cluster cost) l all :
  length (foldl (λ all i, alter f i all) all l) = length all.
Proof.
  revert all. induction l as [|j l IH]; intros all; simpl; [done|].
  by rewrite IH, length_alter.
Qed.

Lemma foldl_alter_untouched (f : Cluster cost → Cluster cost) l all i :
  i ∉ l → foldl (λ all i, alter f i all) all l !! i = all !! i.
Proof.
  revert all. induction l as [|j l IH]; intros all Hi; simpl; [done|].
  rewrite IH by set_solver. apply list_lookup_alter_ne. set_solver.
Qed.

Lemma foldl_alter_preserves (Q : Cluster cost → Prop)
    (f : Cluster cost → Cluster cost) l all :
  (∀ c, Q c → Q (f c)) →
  (∀ i c, all !! i = Some c → Q c) →
  ∀ i c, foldl (λ all i, alter f i all) all l !! i = Some c → Q c.
Proof.
  intros Hf. revert all. induction l as [|j l IH]; intros all Hall; simpl;
    [done|].
  apply IH. intros i c. destruct (decide (j = i)) as [->|Hne].
  - rewrite list_lookup_alter_eq. destruct (all !! i) eqn:Hi; [|done].
    intros [= <-]. by apply Hf, (Hall i).
  - rewrite list_lookup_alter_ne by done. apply Hall.
Qed.

Lemma foldl_alter_establishes (Q : Cluster cost → Prop)
    (f : Cluster cost → Cluster cost) l all i c :
  (∀ c, Q (f c)) → (∀ c, Q c → Q (f c)) →
  i ∈ l → foldl (λ all i, alter f i all) all l !! i = Some c → Q c.
Proof.
  intros Hf Hkeep. revert all.
  induction l as [|j l IH]; intros all Hi; [by apply elem_of_nil in Hi|].
  simpl. destruct (decide (i ∈ l)) as [Hin|Hni]; [by apply IH|].
  apply elem_of_cons in Hi as [->|?]; [|done].
  rewrite foldl_alter_untouched by done.
  rewrite list_lookup_alter_eq. destruct (all !! j); [|done].
  intros [= <-]. apply Hf.
Qed.

Lemma skipped_same_group groups (c c' : Cluster cost) :
  group c = group c' → skipped groups c = skipped groups c'.
Proof. unfold skipped. by intros ->. Qed.

Lemma reset_cluster_inside groups cluster :
  reimbursed_inside groups (reset_cluster groups cluster).
Proof.
  unfold reimbursed_inside, reset_cluster.
  destruct (skipped groups cluster) eqn:Hs; [congruence | done].
Qed.

Lemma attribute_inside groups c tuple cluster :
  reimbursed_inside groups cluster →
  reimbursed_inside groups (attribute c tuple cluster).
Proof.
  unfold reimbursed_inside, attribute. simpl. intros Hin Hs.
  rewrite remove_reimbursed_spec.
  rewrite (skipped_same_group groups _ cluster) in Hs by done.
  specialize (Hin Hs). intros x [Hx _]%elem_of_difference. by apply Hin.
Qed.

Lemma add_po_costs_inside groups po_to_cost cluster :
  reimbursed_inside groups cluster →
  reimbursed_inside groups (add_po_costs po_to_cost cluster).
Proof. unfold reimbursed_inside, add_po_costs. simpl. done. Qed.

Lemma attribute_all_inv (Q : Cluster cost → Prop) m all ttc :
  Forall (λ item : list string * cost, item.1 ≠ []) ttc →
  (∀ c tuple cluster, Q cluster → Q (attribute c tuple cluster)) →
  ∃ all', attribute_all m all ttc = Some all'
    ∧ length all' = length all
    ∧ ∀ i, (∀ c, all !! i = Some c → Q c) →
           ∀ c', all' !! i = Some c' → Q c'.
Proof.
  intros Hne HQ. revert all.
  induction Hne as [|[tuple c] ttc Htuple _ IH]; intros all; simpl.
  - exists all. done.
  - unfold attribute_tuple. simpl in *.
    destruct tuple as [|first_tracking tuple]; [done|].
    destruct (m !! first_tracking) as [j|]; [|apply IH].
    destruct (IH (alter (attribute c (first_tracking :: tuple)) j all))
      as (all' & Hall' & Hlen & Hinv).
    exists all'. split; [done|]. split; [by rewrite Hlen, length_alter|].
    intros i Hi. apply Hinv. intros c0.
    destruct (decide (j = i)) as [->|Hji].
    + rewrite list_lookup_alter_eq. destruct (all !! i) eqn:Hl; [|done].
      intros [= <-]. by apply HQ, Hi.
    + rewrite list_lookup_alter_ne by done. apply Hi.
Qed.

Lemma elem_of_mapping_values m t i :
  m !! t = Some i → i ∈ mapping_values m.
Proof.
  intros Hm. unfold mapping_values. apply list_elem_of_fmap.
  exists (t, i). split; [done|]. by apply elem_of_map_to_list.
Qed.

(** C3, as far as the code goes: [fill_costs_new] runs to the end when no
    trackings tuple is empty, and afterwards every cluster that some
    mapping entry refers to and that the group filter does not skip (none
    is skipped when no groups are given) has its non-reimbursed trackings
    inside its trackings.  The snapshot import does not establish this: it
    stores the union of the candidates' non-reimbursed trackings. *)
Theorem fill_costs_new_non_reimbursed m all
    (trackings_to_cost : list (list string * cost))
    (po_to_cost : gmap string cost) (groups : list string) :
  Forall (λ item : list string * cost, item.1 ≠ []) trackings_to_cost →
  (∃ all',
     fill_costs_new m all trackings_to_cost po_to_cost groups = Some all'
     ∧ length all' = length all
     ∧ (∀ t i c, m !! t = Some i → all' !! i = Some c →
          skipped groups c = false →
          non_reimbursed_trackings c ⊆ trackings c)
     ∧ (groups = [] →
          ∀ t i c, m !! t = Some i → all' !! i = Some c →
            non_reimbursed_trackings c ⊆ trackings c))
  ∧ (∀ downloaded cluster,
       non_reimbursed_trackings (Uploader.override_cluster downloaded cluster)
       = ⋃ (non_reimbursed_trackings
              <$> Uploader.find_candidate_downloads cluster downloaded)).
Proof.
  intros Hne.
  split; [|intros downloaded cluster;
           apply (UploaderSpec.override_cluster_fields downloaded cluster)].
  unfold fill_costs_new.
  destruct (attribute_all_inv (reimbursed_inside groups) m
              (reset_all groups m all) trackings_to_cost Hne)
    as (all1 & -> & Hlen1 & Hinv1).
  { intros. by apply attribute_inside. }
  eexists. split; [reflexivity|].
  assert (Hmain : ∀ t i c, m !! t = Some i →
            po_fixes po_to_cost m all1 !! i = Some c →
            reimbursed_inside groups c).
  { intros t i c Hm Hc. unfold po_fixes in Hc.
    destruct (decide (i ∈ mapping_values m)) as [Hin|Hni];
      [|by apply elem_of_mapping_values in Hm].
    pose proof (lookup_lt_Some _ _ _ Hc) as Hlt.
    rewrite foldl_alter_length in Hlt.
    destruct (lookup_lt_is_Some_2 all1 i Hlt) as [c1 Hc1].
    assert (Hc1' : reimbursed_inside groups c1).
    { apply (Hinv1 i); [|done]. intros c0 Hc0.
      unfold reset_all in Hc0.
      eapply (foldl_alter_establishes (reimbursed_inside groups));
        [| |exact Hin|exact Hc0].
      - apply reset_cluster_inside.
      - intros. apply reset_cluster_inside. }
    clear Hinv1 Hin. revert i c c1 Hc Hc1 Hc1' Hlt Hm.
    generalize (mapping_values m). intros l.
    revert all1 Hlen1. induction l as [|j l IH]; intros all1 Hlen1 i c c1;
      simpl.
    - intros Hc Hc1 HQ _ _. rewrite Hc in Hc1. by injection Hc1 as <-.
    - intros Hc Hc1 HQ Hlt Hm.
      destruct (decide (j = i)) as [->|Hji].
      + eapply (IH (alter (add_po_costs po_to_cost) i all1));
          [by rewrite length_alter | exact Hc | | | | exact Hm].
        * rewrite list_lookup_alter_eq, Hc1. reflexivity.
        * by apply add_po_costs_inside.
        * by rewrite length_alter.
      + eapply (IH (alter (add_po_costs po_to_cost) j all1));
          [by rewrite length_alter | exact Hc | | exact HQ | | exact Hm].
        * by rewrite list_lookup_alter_ne.
        * by rewrite length_alter. }
  split.
  { unfold po_fixes, reset_all in *.
    by rewrite foldl_alter_length, Hlen1, foldl_alter_length. }
  split.
  - intros t i c Hm Hc Hs. by apply (Hmain t i c).
  - intros -> t i c Hm Hc. by apply (Hmain t i c).
Qed.

(** ** The two contributions to the tracked cost, one step at a time *)

(** A tuple whose first tracking is unmapped changes nothing; otherwise
    its cost goes to the cluster of its first tracking and to no other,
    and all of its trackings leave that cluster's non-reimbursed set. *)
Lemma attribute_tuple_spec m all (tuple : list string) (c : cost)
    first_tracking rest :
  tuple = first_tracking :: rest →
  (m !! first_tracking = None → attribute_tuple m all (tuple, c) = Some all)
  ∧ (∀ i cl, m !! first_tracking = Some i → all !! i = Some cl →
       ∃ all' cl',
         attribute_tuple m all (tuple, c) = Some all'
         ∧ all' !! i = Some cl'
         ∧ tracked_cost cl' = cadd (tracked_cost cl) c
         ∧ (∀ t, t ∈ non_reimbursed_trackings cl'
                 ↔ t ∈ non_reimbursed_trackings cl ∧ t ∉ tuple)
         ∧ (∀ j, j ≠ i → all' !! j = all !! j)).
Proof.
  intros ->. unfold attribute_tuple. simpl. split; [by intros ->|].
  intros i cl -> Hi. eexists _, (attribute c (first_tracking :: rest) cl).
  split; [reflexivity|].
  split. { by rewrite list_lookup_alter_eq, Hi. }
  split; [done|]. split.
  - intros t. unfold attribute. cbn -[remove_reimbursed].
    rewrite remove_reimbursed_spec.
    by rewrite elem_of_difference, elem_of_list_to_set.
  - intros j Hj. by rewrite list_lookup_alter_ne.
Qed.

(** One visit of a cluster by the last loop adds the price of each of its
    purchase orders, an unpriced one counting as zero. *)
Lemma add_po_costs_spec (po_to_cost : gmap string cost) cluster :
  tracked_cost (add_po_costs po_to_cost cluster)
  = foldl cadd (tracked_cost cluster)
      (po_cost po_to_cost <$> elements (purchase_orders cluster))
  ∧ ∀ po, po_to_cost !! po = None → po_cost po_to_cost po = czero.
Proof.
  split.
  - unfold add_po_costs. simpl. generalize (tracked_cost cluster).
    induction (elements (purchase_orders cluster)) as [|po pos IH];
      intros acc; simpl; [done | apply IH].
  - intros po Hpo. unfold po_cost. by rewrite Hpo.
Qed.

End with_num.
End ReconcileSpec.

Module ReconcileExamples.
Import Reconcile ReconcileSpec.

Lemma fill_costs_expected_witness :
  ∃ cluster',
    fill_costs Data.order_lookup [Data.cl_scenario] !! 0 = Some cluster'
    ∧ expected_cost cluster' = 30%Z.
Proof.
  destruct (fill_costs_expected Data.order_lookup [Data.cl_scenario] 0
              Data.cl_scenario eq_refl) as (_ & c' & Hc & He & _).
  exists c'. split; [exact Hc|]. rewrite He. vm_compute. reflexivity.
Defined.



(** C5 as the claim words it fails: a tuple that names a tracking unknown
    to every cluster maps that tracking to the target, whose trackings do
    not contain it. *)
Lemma merge_maps_unknown_tracking :
  ¬ partition_property
      (merge_by_trackings_tuples (Data.start [Data.cl_A]) [Data.tuple_AD]).
Proof.
  intros [Hmap _].
  destruct (Hmap "D"%string 0) as (c & Hc & Hin); [vm_compute; reflexivity|].
  assert (Ht : trackings <$>
               (merge_by_trackings_tuples (Data.start [Data.cl_A])
                  [Data.tuple_AD]).1 !! 0 = Some {["A"%string]})
    by (vm_compute; reflexivity).
  rewrite Hc in Ht. simpl in Ht. apply (inj Some) in Ht. rewrite Ht in Hin.
  apply elem_of_singleton in Hin. discriminate.
Qed.

Lemma merge_keeps_known_trackings_witness :
  let st := merge_by_trackings_tuples (Data.start Data.store_ABC)
              [Data.tuple_AB; Data.tuple_CB] in
  ∃ i c, st.2 !! "A"%string = Some i ∧ st.1 !! i = Some c
         ∧ "A"%string ∈ trackings c
         ∧ ∀ j, st.2 !! "A"%string = Some j → j = i.
Proof.
  apply (proj1 (merge_keeps_known_trackings Data.store_ABC
                  [Data.tuple_AB; Data.tuple_CB] "A"%string)).
  exists 0. vm_compute. reflexivity.
Defined.

(** The absorbed cluster stays behind: after the tuple (A, B) the cluster
    of A has taken in B and C, yet C is still mapped to the old cluster of
    B and C, which the merge did not touch.  Two clusters that the mapping
    refers to now share B and C. *)
Example absorbed_cluster_still_mapped :
  let st := merge_by_trackings_tuples (Data.start Data.store_A_BC)
              [Data.tuple_AB] in
  st.2 !! "B"%string = Some 0 ∧ st.2 !! "C"%string = Some 1
  ∧ trackings <$> st.1 !! 0 = Some {["A"; "B"; "C"]}%string
  ∧ trackings <$> st.1 !! 1 = Some {["B"; "C"]}%string.
Proof. repeat split; vm_compute; reflexivity. Qed.

(** C9 at the failing input: clusters for A, B and C and the tuples (A, B)
    and (C, B) in this order.  After the first run A is mapped to cluster 0
    with trackings A and B, and B to cluster 2.  The second run, with the
    same tuples, finds that cluster 2 is not part of cluster 0 and merges
    it in: cluster 0 now also holds C. *)
Theorem merge_rerun_absorbs_again :
  let tuples := [Data.tuple_AB; Data.tuple_CB] in
  let st1 := merge_by_trackings_tuples (Data.start Data.store_ABC) tuples in
  let st2 := merge_by_trackings_tuples st1 tuples in
  st1.2 !! "A"%string = Some 0 ∧ st1.2 !! "B"%string = Some 2
  ∧ trackings <$> st1.1 !! 0 = Some {["A"; "B"]}%string
  ∧ trackings <$> st2.1 !! 0 = Some {["A"; "B"; "C"]}%string
  ∧ st2 ≠ st1.
Proof.
  intros tuples st1 st2.
  assert (H1 : trackings <$> st1.1 !! 0 = Some {["A"; "B"]}%string)
    by (vm_compute; reflexivity).
  assert (H2 : trackings <$> st2.1 !! 0 = Some {["A"; "B"; "C"]}%string)
    by (vm_compute; reflexivity).
  split; [vm_compute; reflexivity|]. split; [vm_compute; reflexivity|].
  split; [exact H1|]. split; [exact H2|].
  intros Heq. rewrite Heq, H1 in H2. apply (inj Some) in H2.
  assert (Hc : "C"%string ∈ ({["A"; "B"]} : gset string))
    by (rewrite H2; set_solver).
  set_solver.
Qed.

(** C3 as the claim words it fails: the new cluster holds tracking A only,
    the snapshot row it intersects lists B as not reimbursed, and after
    [override_pos_and_costs] B is in the new cluster's non-reimbursed
    trackings without being one of its trackings. *)
Lemma override_breaks_inclusion :
  ∃ cluster',
    Uploader.override_pos_and_costs [Data.sheet_AB] [Data.new_A] !! 0
    = Some cluster'
    ∧ non_reimbursed_trackings Data.new_A ⊆ trackings Data.new_A
    ∧ ¬ non_reimbursed_trackings cluster' ⊆ trackings cluster'.
Proof.
  exists (Uploader.override_cluster [Data.sheet_AB] Data.new_A).
  split; [reflexivity|]. split; [vm_compute; set_solver|].
  assert (Hn : non_reimbursed_trackings
                 (Uploader.override_cluster [Data.sheet_AB] Data.new_A)
               = {["B"%string]}) by (vm_compute; reflexivity).
  assert (Ht : trackings (Uploader.override_cluster [Data.sheet_AB] Data.new_A)
               = {["A"%string]}) by (vm_compute; reflexivity).
  rewrite Hn, Ht. intros Hsub.
  assert (Hb : "B"%string ∈ ({["A"%string]} : gset string))
    by (apply Hsub; set_solver).
  apply elem_of_singleton in Hb. discriminate.
Qed.

Lemma fill_costs_new_non_reimbursed_witness :
  ∃ all',
    fill_costs_new (map_clusters_by_tracking [Data.cl_AB_P]) [Data.cl_AB_P]
      [Data.tuple_AB] Data.po_prices [] = Some all'
    ∧ ∀ t i c, map_clusters_by_tracking [Data.cl_AB_P] !! t = Some i →
               all' !! i = Some c →
               non_reimbursed_trackings c ⊆ trackings c.
Proof.
  destruct (fill_costs_new_non_reimbursed
              (map_clusters_by_tracking [Data.cl_AB_P]) [Data.cl_AB_P]
              [Data.tuple_AB] Data.po_prices [])
    as [(all' & Hall' & _ & _ & Hnone) _].
  { repeat constructor. simpl. discriminate. }
  exists all'. split; [exact Hall'|]. exact (Hnone eq_refl).
Defined.

(** C7 at the failing input: one cluster with the trackings A and B and
    the purchase order P, priced at 10, and the carrier tuple (A, B) with a
    cost of 50.  The mapping has two entries for the cluster, so the last
    loop visits it twice and adds the price of P twice: the tracked cost is
    70, not 50 + 10.  The tuple's part is as claimed: the 50 went to the
    cluster of A, and neither A nor B is left as not reimbursed. *)
Theorem po_cost_added_once_per_mapping_entry :
  mapping_values (map_clusters_by_tracking [Data.cl_AB_P]) = [0; 0]
  ∧ ∃ cluster',
      fill_costs_new (map_clusters_by_tracking [Data.cl_AB_P]) [Data.cl_AB_P]
        [Data.tuple_AB] Data.po_prices [] = Some [cluster']
      ∧ tracked_cost cluster' = 70%Z
      ∧ non_reimbursed_trackings cluster' = ∅.
Proof.
  split; [vm_compute; reflexivity|].
  eexists. split; [vm_compute; reflexivity|].
  split; vm_compute; reflexivity.
Qed.

(** The spec's scenario: orders O1 (10) and O2 (20), one tracking with a
    reported cost of 25, no adjustment and no override give a diff of -5.
    The cluster has a single tracking and no purchase order. *)
Example scenario_diff :
  Uploader.total_diff <$>
    default []
      (fill_costs_new (map_clusters_by_tracking [Data.cl_scenario])
         (fill_costs Data.order_lookup [Data.cl_scenario])
         [Data.tuple_tA] ∅ [])
  = [(-5)%Z].
Proof. vm_compute. reflexivity. Qed.

End ReconcileExamples.

(** * Further properties of reconciliation_uploader.py *)

Module UploaderLaws.
Import Uploader UploaderSpec.

Section with_num.
Context `{Num cost}.
Implicit Types cluster : Cluster cost.

(** ** The comparator *)

(** X1: the three results of [compare] by cases.  It answers 1 only through
    the diff rule, which is reached only when the second cluster is neither
    verified nor below cost; it answers -1 exactly when the second cluster is
    verified, or is below cost while the first is not verified. *)
Theorem compare_cases (one two : Cluster cost) :
  (compare one two = 1%Z
   ↔ verified two = false ∧ below_cost two = false
     ∧ cltb (total_diff one) (total_diff two) = true)
  ∧ (compare one two = (-1)%Z
     ↔ verified two = true ∨ (verified one = false ∧ below_cost two = true))
  ∧ (compare one two = 0%Z
     ↔ verified two = false
       ∧ ((verified one = true ∧ below_cost two = true)
          ∨ (below_cost two = false
             ∧ cltb (total_diff one) (total_diff two) = false))).
Proof.
  unfold compare.
  destruct (verified two), (verified one), (below_cost two),
    (cltb (total_diff one) (total_diff two)); simpl;
    (split; [|split]); split; try done; intuition congruence.
Qed.

(** X2: what the sort sees.  [list.sort] with [cmp_to_key] only asks whether
    one key is less than another, and that answer depends on the verified and
    below-cost flags alone: the diff rule can only answer 0 or 1, never
    "less", so no cost field influences any comparison the sort makes. *)
Theorem key_lt_flags_only (one two : Cluster cost) :
  key_lt one two
  = verified two || (negb (verified one) && below_cost two).
Proof.
  unfold key_lt, compare.
  destruct (verified two), (verified one), (below_cost two),
    (cltb (total_diff one) (total_diff two)); reflexivity.
Qed.

(** X3: [compare] is not a consistent three-way comparison.  For two
    verified clusters each is reported to sort before the other, and a
    verified cluster is reported to sort before itself. *)
Theorem compare_verified_pair (a b : Cluster cost) :
  verified a = true → verified b = true →
  sorts_before a b ∧ sorts_before b a ∧ sorts_before a a.
Proof.
  intros Ha Hb. unfold sorts_before, compare. rewrite Ha, Hb. lia.
Qed.

(** ** Candidates *)

(** X4: the candidates of a cluster are a sub-list of the snapshot, in
    snapshot order, and depend on the cluster's trackings only.  A cluster
    without trackings has no candidate, and a snapshot row without trackings
    is never a candidate. *)
Theorem find_candidate_downloads_shape cluster
    (downloaded : list (Cluster cost)) :
  find_candidate_downloads cluster downloaded `sublist_of` downloaded
  ∧ (∀ other, trackings other = trackings cluster →
       find_candidate_downloads other downloaded
       = find_candidate_downloads cluster downloaded)
  ∧ (trackings cluster = ∅ → find_candidate_downloads cluster downloaded = [])
  ∧ (∀ d, d ∈ find_candidate_downloads cluster downloaded → trackings d ≠ ∅).
Proof.
  split; [apply sublist_filter|].
  split. { intros other Ht. unfold find_candidate_downloads. by rewrite Ht. }
  split.
  - intros He. unfold find_candidate_downloads. rewrite He.
    induction downloaded as [|d ds IH]; [done|].
    rewrite filter_cons, IH. case_decide as Hd; [|done].
    exfalso. apply Hd. apply (right_absorb_L ∅ (∩)).
  - intros d (_ & t & Ht & _)%elem_of_find_candidate_downloads He.
    rewrite He in Ht. by apply not_elem_of_empty in Ht.
Qed.

(** ** Snapshot import *)

Lemma flags_source_ext (a b : Cluster cost) (cands : list (Cluster cost)) :
  trackings a = trackings b → orders a = orders b →
  flags_source a cands = flags_source b cands.
Proof. intros Ht Ho. unfold flags_source. by rewrite Ht, Ho. Qed.

Lemma find_candidate_downloads_ext (a b : Cluster cost)
    (downloaded : list (Cluster cost)) :
  trackings a = trackings b →
  find_candidate_downloads a downloaded = find_candidate_downloads b downloaded.
Proof. intros Ht. unfold find_candidate_downloads. by rewrite Ht. Qed.

Lemma fill_adjustments_cluster_idem downloaded cluster :
  fill_adjustments_cluster downloaded
    (fill_adjustments_cluster downloaded cluster)
  = fill_adjustments_cluster downloaded cluster.
Proof.
  destruct (fill_adjustments_cluster_fields downloaded cluster)
    as (_ & _ & Ht & Ho).
  unfold fill_adjustments_cluster at 1.
  rewrite (find_candidate_downloads_ext _ cluster) by done.
  rewrite (flags_source_ext _ cluster) by done.
  unfold fill_adjustments_cluster.
  rewrite (flags_source_ext (set_notes _ (set_adjustment _ cluster)) cluster)
    by done.
  destruct (flags_source cluster _); reflexivity.
Qed.

(** X5: importing the same snapshot twice is the same as importing it once. *)
Theorem fill_adjustments_idempotent
    (downloaded all_clusters : list (Cluster cost)) :
  fill_adjustments downloaded (fill_adjustments downloaded all_clusters)
  = fill_adjustments downloaded all_clusters.
Proof.
  unfold fill_adjustments. rewrite <- list_fmap_compose.
  apply list_fmap_ext. intros i c _. apply fill_adjustments_cluster_idem.
Qed.

Lemma override_fill_adjustments_cluster sheet_one sheet_two cluster :
  fill_adjustments_cluster sheet_one (override_cluster sheet_two cluster)
  = override_cluster sheet_two (fill_adjustments_cluster sheet_one cluster).
Proof.
  destruct (fill_adjustments_cluster_fields sheet_one cluster)
    as (_ & _ & Ht & Ho).
  destruct (override_cluster_fields sheet_two cluster)
    as (_ & _ & _ & Ht' & Ho' & _).
  unfold override_cluster at 2.
  rewrite (find_candidate_downloads_ext _ cluster) by done.
  unfold fill_adjustments_cluster.
  rewrite (find_candidate_downloads_ext _ cluster) by done.
  rewrite (flags_source_ext _ cluster) by done.
  rewrite (flags_source_ext (set_notes _ (set_adjustment _ cluster)) cluster)
    by done.
  unfold override_cluster.
  destruct (foldl override_acc _ _) as [[pos nrt] total].
  destruct (flags_source cluster _); reflexivity.
Qed.

(** X6: the two imports from the sheet do not interfere.  Filling the
    adjustments from one snapshot and overriding the purchase orders and
    costs from another give the same clusters in either order. *)
Theorem fill_adjustments_override_commute
    (sheet_one sheet_two all_clusters : list (Cluster cost)) :
  fill_adjustments sheet_one (override_pos_and_costs sheet_two all_clusters)
  = override_pos_and_costs sheet_two (fill_adjustments sheet_one all_clusters).
Proof.
  unfold fill_adjustments, override_pos_and_costs.
  rewrite <- !list_fmap_compose. apply list_fmap_ext.
  intros i c _. apply override_fill_adjustments_cluster.
Qed.

Lemma filter_none {A} (P : A → Prop) `{∀ x, Decision (P x)} (l : list A) :
  (∀ x, x ∈ l → ¬ P x) → filter P l = [].
Proof.
  induction l as [|x l IH]; intros Hall; [done|].
  rewrite filter_cons_False by (apply Hall; by left).
  apply IH. intros y Hy. apply Hall. by right.
Qed.

Lemma find_candidate_downloads_none cluster (downloaded : list (Cluster cost)) :
  (∀ d, d ∈ downloaded → trackings d ## trackings cluster) →
  find_candidate_downloads cluster downloaded = [].
Proof.
  intros Hdis. apply filter_none. intros d Hd Hne. apply Hne.
  apply disjoint_intersection_L. by apply Hdis.
Qed.



(** X8: a cluster that shares no tracking with any row of the snapshot (so
    every cluster, when the snapshot is empty) comes out of
    [fill_adjustments] with a zero adjustment and empty notes, whatever it
    had before, and with its three flags as they were. *)
Theorem fill_adjustments_unknown_cluster
    (downloaded all_clusters : list (Cluster cost)) i cluster :
  all_clusters !! i = Some cluster →
  (∀ d, d ∈ downloaded → trackings d ## trackings cluster) →
  ∃ c', fill_adjustments downloaded all_clusters !! i = Some c'
        ∧ adjustment c' = czero ∧ notes c' = EmptyString
        ∧ flags c' = flags cluster.
Proof.
  intros Hi Hdis.
  exists (fill_adjustments_cluster downloaded cluster).
  split. { unfold fill_adjustments. by rewrite list_lookup_fmap, Hi. }
  destruct (fill_adjustments_cluster_fields downloaded cluster)
    as (Ha & Hn & _).
  destruct (fill_adjustments_cluster_flags downloaded cluster) as (_ & Hno).
  rewrite (find_candidate_downloads_none cluster downloaded Hdis)
    in Ha, Hn, Hno.
  split; [exact Ha|]. split; [exact Hn|].
  apply Hno. intros [s [Hs _]]. discriminate.
Qed.

End with_num.
End UploaderLaws.

(** * Further properties of reconcile.py *)

Module ReconcileLaws.
Import Reconcile ReconcileSpec UploaderLaws.

Section with_num.
Context `{Num cost}.
Implicit Types cluster : Cluster cost.
Implicit Types all_clusters all : list (Cluster cost).
Implicit Types m : gmap string nat.
Implicit Types get_order_info : string → option (OrderInfo cost).

(** ** [fill_email_ids] *)

Lemma foldl_add_order_info get_order_info (ids : gset string) (acc : cost)
    order_ids :
  let result := foldl (add_order_info get_order_info) (ids, acc) order_ids in
  result.2 = foldl cadd acc (successful_costs get_order_info order_ids)
  ∧ ∀ e, e ∈ result.1
         ↔ e ∈ ids
           ∨ ∃ o info, o ∈ order_ids ∧ get_order_info o = Some info
                       ∧ email_id info = Some e ∧ e ≠ EmptyString.
Proof.
  revert ids acc. unfold successful_costs.
  induction order_ids as [|o rest IH]; intros ids acc; cbn [foldl].
  - split; [done|]. intros e. split; [by left|].
    intros [He | (o & info & Ho & _)]; [done | by apply elem_of_nil in Ho].
  - unfold add_order_info at 2 4. destruct (get_order_info o) as [info|] eqn:Hget.
    + cbn [fst snd omap list_omap]. rewrite Hget. cbn [fmap list_fmap foldl].
      destruct (IH (match email_id info with
                    | Some e => if PyStr.truthy e then ids ∪ {[e]} else ids
                    | None => ids
                    end) (cadd acc (cost_of info))) as [Hcost Hids].
      split; [exact Hcost|]. intros e. rewrite Hids. split.
      * intros [He | (o' & info' & Ho' & Hrest)].
        -- destruct (email_id info) as [e0|] eqn:He0; [|by left].
           destruct e0 as [|a e0]; simpl in He; [by left|].
           apply elem_of_union in He as [He | ->%elem_of_singleton];
             [by left|].
           right. exists o, info. split; [by left|]. done.
        -- right. exists o', info'. split; [by right | done].
      * intros [He | (o' & info' & [->|Ho']%elem_of_cons & Hg & He & Hne)].
        -- left. destruct (email_id info) as [e0|]; [|done].
           destruct (PyStr.truthy e0); [|done]. apply elem_of_union. by left.
        -- left. rewrite Hg in Hget. injection Hget as ->. rewrite He.
           destruct e as [|a e]; [done|]. simpl.
           apply elem_of_union. right. by apply elem_of_singleton.
        -- right. by exists o', info'.
    + cbn [omap list_omap]. rewrite Hget.
      destruct (IH ids acc) as [Hcost Hids]. split; [exact Hcost|].
      intros e. rewrite Hids. split.
      * intros [He | (o' & info' & Ho' & Hrest)]; [by left|].
        right. exists o', info'. split; [by right | done].
      * intros [He | (o' & info' & [->|Ho']%elem_of_cons & Hg & Hrest)];
          [by left | congruence | right; by exists o', info'].
Qed.

(** X9: [fill_email_ids] starts every cluster from scratch: whatever email
    ids it held are dropped, and afterwards it holds exactly the non-empty
    email ids returned by the successful lookups of its orders.  Its expected
    cost is the sum over the successful lookups, the same value that
    [fill_costs] computes; an order whose lookup fails contributes neither an
    email id nor a cost. *)
Theorem fill_email_ids_spec get_order_info all_clusters i cluster :
  all_clusters !! i = Some cluster →
  ∃ cluster',
    fill_email_ids get_order_info all_clusters !! i = Some cluster'
    ∧ (∀ e, e ∈ email_ids cluster'
            ↔ ∃ o info, o ∈ orders cluster ∧ get_order_info o = Some info
                        ∧ email_id info = Some e ∧ e ≠ EmptyString)
    ∧ expected_cost cluster'
      = py_sum (successful_costs get_order_info (elements (orders cluster)))
    ∧ expected_cost cluster'
      = expected_cost (fill_costs_cluster get_order_info cluster)
    ∧ trackings cluster' = trackings cluster
    ∧ orders cluster' = orders cluster.
Proof.
  intros Hi. exists (fill_email_ids_cluster get_order_info cluster).
  split. { unfold fill_email_ids. by rewrite list_lookup_fmap, Hi. }
  unfold fill_email_ids_cluster. cbn.
  destruct (foldl_add_order_info get_order_info ∅ czero
              (elements (orders cluster))) as [Hcost Hids].
  split; [|split; [exact Hcost|split; [|done]]].
  - intros e. rewrite Hids. split.
    + intros [He | (o & info & Ho & Hrest)]; [by apply not_elem_of_empty in He|].
      exists o, info. split; [by apply elem_of_elements | done].
    + intros (o & info & Ho & Hrest). right. exists o, info.
      split; [by apply elem_of_elements | done].
  - rewrite Hcost. unfold fill_costs_cluster. cbn.
    symmetry. apply foldl_add_order_cost.
Qed.

(** ** [map_clusters_by_tracking] *)

Lemma lookup_map_clusters_from_last i all m t j :
  map_clusters_from i all m !! t = Some j
  ↔ (m !! t = Some j ∧ ∀ c, c ∈ all → t ∉ trackings c)
    ∨ ∃ k c, all !! k = Some c ∧ j = i + k ∧ t ∈ trackings c
             ∧ ∀ k' c', k < k' → all !! k' = Some c' → t ∉ trackings c'.
Proof.
  revert i m. induction all as [|c all IH]; intros i m; cbn [map_clusters_from].
  - split.
    + intros Hm. left. split; [done|]. intros c Hc. by apply elem_of_nil in Hc.
    + intros [[Hm _] | (k & c & Hk & _)]; [done | by destruct k].
  - rewrite IH, lookup_point_all. split.
    + intros [[Hm Hno] | (k & c' & Hk & -> & Ht & Hlast)].
      * case_decide as Hin.
        -- right. exists 0, c. injection Hm as <-. split; [done|].
           split; [lia|]. split; [by apply elem_of_elements|].
           intros [|k'] c' Hlt Hk'; [lia|]. apply Hno.
           by eapply list_elem_of_lookup_2.
        -- left. split; [done|]. intros c' [->|Hc']%elem_of_cons;
             [by rewrite elem_of_elements in Hin | by apply Hno].
      * right. exists (S k), c'. split; [done|]. split; [lia|].
        split; [done|]. intros [|k'] c'' Hlt Hk'; [lia|].
        apply (Hlast k' c''); [lia | done].
    + intros [[Hm Hno] | ([|k] & c' & Hk & -> & Ht & Hlast)].
      * left. rewrite decide_False.
        -- split; [done|]. intros c' Hc'. apply Hno. by right.
        -- rewrite elem_of_elements. apply Hno. by left.
      * left. injection Hk as <-. rewrite decide_True
          by (by apply elem_of_elements).
        split; [f_equal; lia|]. intros c' (k' & Hk')%list_elem_of_lookup.
        apply (Hlast (S k') c'); [lia | done].
      * right. exists k, c'. split; [done|]. split; [lia|].
        split; [done|]. intros k' c'' Hlt Hk'.
        apply (Hlast (S k') c''); [lia | done].
Qed.

(** X10: the mapping built by [map_clusters_by_tracking] has an entry for
    exactly the trackings that occur in some cluster, and when several
    clusters hold the same tracking the entry names the last of them in list
    order. *)
Theorem map_clusters_by_tracking_last_wins all_clusters t :
  (∀ i, map_clusters_by_tracking all_clusters !! t = Some i
        ↔ ∃ c, all_clusters !! i = Some c ∧ t ∈ trackings c
               ∧ ∀ j c', i < j → all_clusters !! j = Some c' →
                         t ∉ trackings c')
  ∧ (map_clusters_by_tracking all_clusters !! t = None
     ↔ ∀ c, c ∈ all_clusters → t ∉ trackings c).
Proof.
  unfold map_clusters_by_tracking. split.
  - intros i. rewrite lookup_map_clusters_from_last. split.
    + intros [[Hm _] | (k & c & Hk & -> & Ht & Hlast)]; [done|].
      by exists c.
    + intros (c & Hc & Ht & Hlast). right. by exists i, c.
  - split.
    + intros Hnone c Hc Ht.
      destruct (map_clusters_from_is_Some 0 all_clusters ∅ t) as [j Hj];
        [right; by exists c | congruence].
    + intros Hno.
      destruct (map_clusters_from 0 all_clusters ∅ !! t) as [j|] eqn:Hj;
        [|done].
      apply lookup_map_clusters_from in Hj
        as [[Hj _] | (k & c & Hk & _ & Ht)]; [done|].
      exfalso. apply (Hno c); [|done]. by eapply list_elem_of_lookup_2.
Qed.

(** ** The merge: what grows and what stays *)

Lemma grows_refl (c : Cluster cost) : grows c c.
Proof. by unfold grows. Qed.

Lemma grows_trans (a b c : Cluster cost) : grows a b → grows b c → grows a c.
Proof.
  unfold grows. intros (? & ? & ?) (? & ? & ?).
  split; [|split]; by etrans.
Qed.

Lemma absorb_grows f all o i (c : Cluster cost) :
  all !! i = Some c → ∃ c', absorb f all o !! i = Some c' ∧ grows c c'.
Proof.
  intros Hi. destruct (decide (i = f)) as [->|Hne].
  - unfold absorb. rewrite Hi. destruct (all !! o) as [oc|];
      [|exists c; split; [done | apply grows_refl]].
    destruct (already_part c oc); [exists c; split; [done | apply grows_refl]|].
    exists (merge_with c oc).
    split. { apply list_lookup_insert_eq. by eapply lookup_lt_Some. }
    unfold grows. cbn. split; [|split]; apply union_subseteq_l.
  - exists c. rewrite absorb_other by done. split; [done | apply grows_refl].
Qed.

Lemma foldl_absorb_grows f others all i (c : Cluster cost) :
  all !! i = Some c →
  ∃ c', foldl (absorb f) all others !! i = Some c' ∧ grows c c'.
Proof.
  revert all c. induction others as [|o others IH]; intros all c Hi;
    cbn [foldl].
  - exists c. split; [done | apply grows_refl].
  - destruct (absorb_grows f all o i c Hi) as (c1 & Hc1 & Hg1).
    destruct (IH _ _ Hc1) as (c' & Hc' & Hg). exists c'.
    split; [done|]. by eapply grows_trans.
Qed.

Lemma merge_tuple_grows (st : list (Cluster cost) * gmap string nat) tuple i c :
  st.1 !! i = Some c →
  ∃ c', (merge_tuple st tuple).1 !! i = Some c' ∧ grows c c'.
Proof.
  intros Hi. unfold merge_tuple. case_decide;
    [exists c; split; [done | apply grows_refl]|].
  destruct (cluster_list st.2 tuple) as [|first others];
    [exists c; split; [done | apply grows_refl]|].
  cbn [fst]. by apply foldl_absorb_grows.
Qed.

Lemma merge_tuple_length (st : list (Cluster cost) * gmap string nat) tuple :
  length (merge_tuple st tuple).1 = length st.1.
Proof.
  unfold merge_tuple. case_decide; [done|].
  destruct (cluster_list st.2 tuple); [done|]. cbn [fst].
  apply foldl_absorb_length.
Qed.

(** X11: merging never removes anything and never adds or drops a cluster
    object.  Whatever the tuples are, the store keeps its length and every
    cluster's trackings, orders and purchase orders after the merge include
    those it had before. *)
Theorem merge_monotone (st : list (Cluster cost) * gmap string nat)
    (trackings_to_cost : list (list string * cost)) :
  length (merge_by_trackings_tuples st trackings_to_cost).1 = length st.1
  ∧ ∀ i c, st.1 !! i = Some c →
      ∃ c', (merge_by_trackings_tuples st trackings_to_cost).1 !! i = Some c'
            ∧ trackings c ⊆ trackings c' ∧ orders c ⊆ orders c'
            ∧ purchase_orders c ⊆ purchase_orders c'.
Proof.
  unfold merge_by_trackings_tuples. revert st.
  induction trackings_to_cost as [|item rest IH]; intros st; cbn [foldl].
  - split; [done|]. intros i c Hi. exists c. split; [done|]. apply grows_refl.
  - destruct (IH (merge_tuple st item.1)) as [Hlen Hgrow].
    split; [by rewrite Hlen, merge_tuple_length|].
    intros i c Hi.
    destruct (merge_tuple_grows st item.1 i c Hi) as (c1 & Hc1 & Hg1).
    destruct (Hgrow i c1 Hc1) as (c' & Hc' & Hg).
    exists c'. split; [done|]. apply (grows_trans c c1 c'); [done|].
    exact Hg.
Qed.

Lemma merge_tuple_lookup_singleton
    (st : list (Cluster cost) * gmap string nat) tuple :
  length tuple = 1 → merge_tuple st tuple = st.
Proof. intros Hl. unfold merge_tuple. by rewrite decide_True. Qed.

Lemma merge_tuple_lookup_is_Some
    (st : list (Cluster cost) * gmap string nat) tuple t :
  is_Some (st.2 !! t) → is_Some ((merge_tuple st tuple).2 !! t).
Proof.
  intros Hs. unfold merge_tuple. case_decide; [done|].
  destruct (cluster_list st.2 tuple); [done|]. cbn [snd].
  rewrite lookup_point_all. by case_decide.
Qed.

Lemma merge_tuple_lookup_new
    (st : list (Cluster cost) * gmap string nat) tuple t :
  st.2 !! t = None → is_Some ((merge_tuple st tuple).2 !! t) →
  t ∈ tuple ∧ length tuple ≠ 1.
Proof.
  intros Hnone. unfold merge_tuple. case_decide as Hl;
    [rewrite Hnone; by intros [? ?]|].
  destruct (cluster_list st.2 tuple);
    [rewrite Hnone; by intros [? ?]|]. cbn [snd].
  rewrite lookup_point_all. case_decide; [done|].
  rewrite Hnone. by intros [? ?].
Qed.

(** X12: what the merge does to the mapping.  An entry is never removed; a
    tracking gets a new entry only if it occurs in a tuple of length other
    than one; the entry of a tracking that occurs in no such tuple is left
    as it is; and when every tuple has length one (or there is no tuple)
    store and mapping are untouched. *)
Theorem merge_mapping_frame (st : list (Cluster cost) * gmap string nat)
    (trackings_to_cost : list (list string * cost)) :
  (Forall (λ item, length item.1 = 1) trackings_to_cost →
     merge_by_trackings_tuples st trackings_to_cost = st)
  ∧ ∀ t,
      (is_Some (st.2 !! t) →
         is_Some ((merge_by_trackings_tuples st trackings_to_cost).2 !! t))
      ∧ (st.2 !! t = None →
         is_Some ((merge_by_trackings_tuples st trackings_to_cost).2 !! t) →
         ∃ item, item ∈ trackings_to_cost ∧ t ∈ item.1 ∧ length item.1 ≠ 1)
      ∧ ((∀ item, item ∈ trackings_to_cost → length item.1 ≠ 1 →
                  t ∉ item.1) →
         (merge_by_trackings_tuples st trackings_to_cost).2 !! t = st.2 !! t).
Proof.
  unfold merge_by_trackings_tuples. revert st.
  induction trackings_to_cost as [|item rest IH]; intros st; cbn [foldl].
  - split; [done|]. intros t. split; [done|]. split; [|done].
    intros Hn [? ?]. congruence.
  - destruct (IH (merge_tuple st item.1)) as [Hsingle Hframe]. split.
    + intros [Hl Hrest]%Forall_cons.
      rewrite merge_tuple_lookup_singleton in * by done. by apply Hsingle.
    + intros t. destruct (Hframe t) as (Hkeep & Hnew & Hsame).
      split; [|split].
      * intros Hs. by apply Hkeep, merge_tuple_lookup_is_Some.
      * intros Hnone Hs.
        destruct ((merge_tuple st item.1).2 !! t) as [j|] eqn:Hj.
        -- destruct (merge_tuple_lookup_new st item.1 t Hnone) as [Hin Hl];
             [by rewrite Hj|].
           exists item. split; [by left | done].
        -- destruct (Hnew eq_refl Hs) as (item' & Hin & Ht & Hl).
           exists item'. split; [by right | done].
      * intros Hout. rewrite Hsame.
        -- destruct (decide (length item.1 = 1)) as [Hl|Hl];
             [by rewrite merge_tuple_lookup_singleton|].
           destruct st as [all m].
           apply merge_tuple_lookup_outside. apply Hout; [by left | done].
        -- intros item' Hin. apply Hout. by right.
Qed.

(** ** The merge and the cost attribution that follows it *)

(** X13: when no tracking occurs in two tuples, running the merge a second
    time over the same tuples changes neither a cluster nor a mapping
    entry. *)
Theorem merge_rerun_disjoint (st : list (Cluster cost) * gmap string nat)
    (trackings_to_cost : list (list string * cost)) :
  pairwise_disjoint trackings_to_cost.*1 →
  merge_by_trackings_tuples
    (merge_by_trackings_tuples st trackings_to_cost) trackings_to_cost
  = merge_by_trackings_tuples st trackings_to_cost.
Proof.
  intros Hdis. apply merge_settled_noop. by apply merge_settles_all.
Qed.

(** X14: why [fill_costs_new] may look at the first tracking only.  When no
    tracking occurs in two tuples, then after the merge every tracking of a
    tuple of length other than one has the same mapping entry as the tuple's
    first tracking: all of them are unmapped, or all name one cluster. *)
Theorem merge_first_tracking_represents
    (st : list (Cluster cost) * gmap string nat)
    (trackings_to_cost : list (list string * cost)) item first_tracking rest t :
  pairwise_disjoint trackings_to_cost.*1 →
  item ∈ trackings_to_cost → item.1 = first_tracking :: rest →
  length item.1 ≠ 1 → t ∈ item.1 →
  (merge_by_trackings_tuples st trackings_to_cost).2 !! t
  = (merge_by_trackings_tuples st trackings_to_cost).2 !! first_tracking.
Proof.
  intros Hdis Hitem Hfirst Hlen Ht.
  pose proof (merge_settles_all st trackings_to_cost Hdis) as Hall.
  rewrite Forall_forall in Hall.
  assert (Hin : item.1 ∈ trackings_to_cost.*1)
    by (apply list_elem_of_fmap; by exists item).
  destruct (Hall _ Hin) as [Hl | [Hnone | [f Hsame]]]; [done| |].
  - rewrite (Hnone t Ht). symmetry. apply Hnone. rewrite Hfirst. by left.
  - rewrite (Hsame t Ht). symmetry. apply Hsame. rewrite Hfirst. by left.
Qed.

(** ** [fill_costs_new], cluster by cluster *)

Lemma foldl_alter_lookup (f : Cluster cost → Cluster cost) l all i :
  foldl (λ all j, alter f j all) all l !! i
  = Nat.iter (length (filter (λ j, j = i) l)) f <$> all !! i.
Proof.
  revert all. induction l as [|j l IH]; intros all; cbn [foldl].
  - rewrite filter_nil. cbn. by destruct (all !! i).
  - rewrite IH, filter_cons. destruct (decide (j = i)) as [->|Hne].
    + rewrite list_lookup_alter_eq. destruct (all !! i) as [c|]; [|done].
      cbn. f_equal. symmetry. apply Nat.iter_succ_r.
    + by rewrite list_lookup_alter_ne.
Qed.

Lemma attribute_all_lookup m all (ttc : list (list string * cost)) all' i :
  attribute_all m all ttc = Some all' →
  all' !! i
  = (λ c, foldl (λ c item, attribute item.2 item.1 c) c
            (items_booked_on m i ttc)) <$> all !! i.
Proof.
  unfold items_booked_on. revert all.
  induction ttc as [|[tuple c] ttc IH]; intros all; cbn [attribute_all].
  - intros [= <-]. rewrite filter_nil. by destruct (all !! i).
  - unfold attribute_tuple. cbn [fst snd].
    destruct tuple as [|first_tracking tuple]; [done|].
    destruct (m !! first_tracking) as [j|] eqn:Hj.
    + intros Hall'. rewrite (IH _ Hall'), filter_cons.
      destruct (decide (targets m i (first_tracking :: tuple, c))) as [Ht|Ht];
        unfold targets in Ht; cbn in Ht; rewrite Hj in Ht.
      * injection Ht as ->. rewrite list_lookup_alter_eq.
        by destruct (all !! i).
      * rewrite list_lookup_alter_ne by congruence. done.
    + intros Hall'. rewrite (IH _ Hall'), filter_cons.
      destruct (decide (targets m i (first_tracking :: tuple, c))) as [Ht|Ht];
        [|done].
      unfold targets in Ht. cbn in Ht. by rewrite Hj in Ht.
Qed.

Lemma attribute_all_None m all (ttc : list (list string * cost)) :
  attribute_all m all ttc = None ↔ ∃ item, item ∈ ttc ∧ item.1 = [].
Proof.
  revert all. induction ttc as [|[tuple c] ttc IH]; intros all;
    cbn [attribute_all].
  - split; [done|]. intros (item & Hin & _). by apply elem_of_nil in Hin.
  - unfold attribute_tuple. cbn [fst snd].
    destruct tuple as [|first_tracking tuple].
    + split; [|done]. intros _. exists ([], c). split; [by left | done].
    + assert (Hstep : ∀ all0, attribute_all m all0 ttc = None
                ↔ ∃ item, item ∈ (first_tracking :: tuple, c) :: ttc
                          ∧ item.1 = []).
      { intros all0. rewrite IH. split.
        - intros (item & Hin & He). exists item. split; [by right | done].
        - intros (item & [->|Hin]%elem_of_cons & He); [done|].
          by exists item. }
      destruct (m !! first_tracking); apply Hstep.
Qed.

(** The store after [fill_costs_new], one cluster at a time. *)
Lemma fill_costs_new_lookup m all (ttc : list (list string * cost))
    (po_to_cost : gmap string cost) groups all' i :
  fill_costs_new m all ttc po_to_cost groups = Some all' →
  all' !! i = cluster_after_costs m ttc po_to_cost groups i <$> all !! i.
Proof.
  unfold fill_costs_new, po_fixes, reset_all, cluster_after_costs, entries_for.
  destruct (attribute_all m _ ttc) as [all1|] eqn:Hall1; [|done].
  intros [= <-]. rewrite foldl_alter_lookup.
  rewrite (attribute_all_lookup _ _ _ _ i Hall1), foldl_alter_lookup.
  by destruct (all !! i).
Qed.

(** X15: [fill_costs_new] raises exactly when one of the trackings tuples is
    empty (it indexes the tuple's first element before looking at anything
    else); in every other case it runs to the end and returns a store of the
    same length. *)
Theorem fill_costs_new_fails_iff m all (ttc : list (list string * cost))
    (po_to_cost : gmap string cost) groups :
  (fill_costs_new m all ttc po_to_cost groups = None
   ↔ ∃ item, item ∈ ttc ∧ item.1 = [])
  ∧ ∀ all', fill_costs_new m all ttc po_to_cost groups = Some all' →
            length all' = length all.
Proof.
  split.
  - rewrite <- (attribute_all_None m (reset_all groups m all) ttc).
    unfold fill_costs_new. by destruct (attribute_all _ _ _).
  - intros all' Hall'.
    assert (Hlk : ∀ i, is_Some (all' !! i) ↔ is_Some (all !! i)).
    { intros i. rewrite (fill_costs_new_lookup _ _ _ _ _ _ i Hall').
      by rewrite fmap_is_Some. }
    destruct (decide (length all' = length all)) as [|Hne]; [done|].
    exfalso. destruct (decide (length all' < length all)).
    + destruct (proj2 (Hlk (length all'))) as [x Hx];
        [by apply lookup_lt_is_Some|].
      apply lookup_lt_Some in Hx. lia.
    + destruct (proj1 (Hlk (length all))) as [x Hx];
        [apply lookup_lt_is_Some; lia|].
      apply lookup_lt_Some in Hx. lia.
Qed.

Lemma without_costs_eq (c c' : Cluster cost) :
  without_costs c' = without_costs c →
  c' = set_tracked_cost (tracked_cost c')
         (set_non_reimbursed_trackings (non_reimbursed_trackings c') c).
Proof.
  destruct c, c'. unfold without_costs. cbn. intros [=]. by subst.
Qed.

Lemma without_costs_reset groups cluster :
  without_costs (reset_cluster groups cluster) = without_costs cluster.
Proof. unfold reset_cluster. by destruct (skipped groups cluster). Qed.

Lemma without_costs_attribute (c : cost) tuple cluster :
  without_costs (attribute c tuple cluster) = without_costs cluster.
Proof. done. Qed.

Lemma without_costs_add_po_costs (po_to_cost : gmap string cost) cluster :
  without_costs (add_po_costs po_to_cost cluster) = without_costs cluster.
Proof. done. Qed.

Lemma without_costs_iter (f : Cluster cost → Cluster cost) k cluster :
  (∀ c, without_costs (f c) = without_costs c) →
  without_costs (Nat.iter k f cluster) = without_costs cluster.
Proof.
  intros Hf. induction k as [|k IH]; [done|]. cbn. by rewrite Hf.
Qed.

Lemma without_costs_booked (booked : list (list string * cost)) cluster :
  without_costs (foldl (λ c item, attribute item.2 item.1 c) cluster booked)
  = without_costs cluster.
Proof.
  revert cluster. induction booked as [|item booked IH]; intros cluster;
    cbn [foldl]; [done|].
  by rewrite IH.
Qed.

Lemma without_costs_after m (ttc : list (list string * cost))
    (po_to_cost : gmap string cost) groups i cluster :
  without_costs (cluster_after_costs m ttc po_to_cost groups i cluster)
  = without_costs cluster.
Proof.
  unfold cluster_after_costs.
  rewrite without_costs_iter by apply without_costs_add_po_costs.
  rewrite without_costs_booked.
  apply without_costs_iter, without_costs_reset.
Qed.

Lemma without_costs_fields (c c' : Cluster cost) :
  without_costs c' = without_costs c →
  trackings c' = trackings c ∧ purchase_orders c' = purchase_orders c
  ∧ group c' = group c.
Proof.
  destruct c, c'. unfold without_costs. cbn. intros [=]. by subst.
Qed.

Lemma entries_for_none m i :
  (∀ t, m !! t ≠ Some i) → entries_for m i = 0.
Proof.
  intros Hno. unfold entries_for. rewrite filter_none; [done|].
  intros j Hj ->. unfold mapping_values in Hj.
  apply list_elem_of_fmap in Hj as ([t j] & -> & Hin).
  apply elem_of_map_to_list in Hin. by apply (Hno t).
Qed.

Lemma entries_for_some m i t : m !! t = Some i → 0 < entries_for m i.
Proof.
  intros Hm. unfold entries_for.
  assert (Hin : i ∈ filter (λ j, j = i) (mapping_values m)).
  { apply list_elem_of_filter. split; [done|].
    by eapply elem_of_mapping_values. }
  destruct (filter (λ j, j = i) (mapping_values m)); [|cbn; lia].
  by apply elem_of_nil in Hin.
Qed.

(** The number of visits is the number of trackings mapped to the cluster. *)
Lemma entries_for_size m i :
  entries_for m i = size (filter (λ kv : string * nat, kv.2 = i) m).
Proof.
  unfold entries_for, mapping_values.
  rewrite map_filter_alt, map_size_list_to_map.
  - induction (map_to_list m) as [|[t j] l IH]; [done|].
    rewrite fmap_cons, !filter_cons. cbn [snd].
    destruct (decide (j = i)); cbn [length]; by rewrite IH.
  - eapply sublist_NoDup; [apply (NoDup_fst_map_to_list m)|].
    apply fmap_sublist, sublist_filter.
Qed.

Lemma items_booked_on_none m i (ttc : list (list string * cost)) :
  (∀ t, m !! t ≠ Some i) → items_booked_on m i ttc = [].
Proof.
  intros Hno. apply filter_none. intros [tuple c] _. unfold targets.
  destruct tuple as [|t tuple]; [done|]. cbn. apply Hno.
Qed.

Lemma iter_reset_cluster groups k cluster :
  0 < k → Nat.iter k (reset_cluster groups) cluster
          = reset_cluster groups cluster.
Proof.
  intros Hk. destruct k as [|k]; [lia|]. clear Hk.
  induction k as [|k IH]; [done|].
  change (Nat.iter (S (S k)) (reset_cluster groups) cluster)
    with (reset_cluster groups (Nat.iter (S k) (reset_cluster groups) cluster)).
  rewrite IH. unfold reset_cluster at 1.
  rewrite (skipped_same_group groups _ cluster).
  - unfold reset_cluster. by destruct (skipped groups cluster).
  - unfold reset_cluster. by destruct (skipped groups cluster).
Qed.

Lemma booked_fields (booked : list (list string * cost)) cluster :
  let c' := foldl (λ c item, attribute item.2 item.1 c) cluster booked in
  tracked_cost c' = foldl cadd (tracked_cost cluster) booked.*2
  ∧ ∀ x, x ∈ non_reimbursed_trackings c'
         ↔ x ∈ non_reimbursed_trackings cluster
           ∧ ∀ item, item ∈ booked → x ∉ item.1.
Proof.
  revert cluster. induction booked as [|item booked IH]; intros cluster;
    cbn [foldl fmap list_fmap].
  - split; [done|]. intros x. split; [|by intros [? _]].
    intros Hx. split; [done|]. intros item Hin. by apply elem_of_nil in Hin.
  - destruct (IH (attribute item.2 item.1 cluster)) as [Hc Hn].
    split; [exact Hc|]. intros x. rewrite Hn.
    unfold attribute at 1. cbn -[remove_reimbursed].
    rewrite remove_reimbursed_spec, elem_of_difference, elem_of_list_to_set.
    split.
    + intros [[Hx Hnot] Hrest]. split; [done|].
      intros item' [->|Hin]%elem_of_cons; [done | by apply Hrest].
    + intros [Hx Hall]. split; [split; [done|]|].
      * apply Hall. by left.
      * intros item' Hin. apply Hall. by right.
Qed.

Lemma iter_add_po_costs_fields (po_to_cost : gmap string cost) k cluster :
  let c' := Nat.iter k (add_po_costs po_to_cost) cluster in
  tracked_cost c'
  = foldl cadd (tracked_cost cluster)
      (mjoin (replicate k (po_prices_of po_to_cost cluster)))
  ∧ non_reimbursed_trackings c' = non_reimbursed_trackings cluster.
Proof.
  revert cluster. induction k as [|k IH]; intros cluster; [done|].
  cbn zeta. rewrite Nat.iter_succ_r.
  destruct (IH (add_po_costs po_to_cost cluster)) as [Hc Hn].
  split; [|by rewrite Hn].
  rewrite Hc. cbn [replicate mjoin list_join]. rewrite foldl_app.
  destruct (add_po_costs_spec po_to_cost cluster) as [-> _].
  done.
Qed.

(** X16: [fill_costs_new] writes two fields and nothing else.  Every cluster
    comes out with all fields other than the tracked cost and the
    non-reimbursed trackings as they were, and a cluster that no mapping
    entry refers to comes out unchanged altogether, whatever it holds. *)
Theorem fill_costs_new_frame m all (ttc : list (list string * cost))
    (po_to_cost : gmap string cost) groups all' i c0 :
  fill_costs_new m all ttc po_to_cost groups = Some all' →
  all !! i = Some c0 →
  ∃ c', all' !! i = Some c'
        ∧ c' = set_tracked_cost (tracked_cost c')
                 (set_non_reimbursed_trackings (non_reimbursed_trackings c') c0)
        ∧ ((∀ t, m !! t ≠ Some i) → c' = c0).
Proof.
  intros Hall' Hi.
  exists (cluster_after_costs m ttc po_to_cost groups i c0).
  split. { by rewrite (fill_costs_new_lookup _ _ _ _ _ _ i Hall'), Hi. }
  split. { apply without_costs_eq, without_costs_after. }
  intros Hno. unfold cluster_after_costs.
  by rewrite (entries_for_none m i Hno), (items_booked_on_none m i ttc Hno).
Qed.

(** X17: the tracked cost that [fill_costs_new] leaves on a cluster that
    some tracking is mapped to.  Starting from zero (from the old tracked
    cost when the group filter skips the cluster), it adds the costs of the
    tuples whose first tracking is mapped to the cluster, in order, and then
    the prices of the cluster's purchase orders once for every tracking that
    is mapped to the cluster. *)
Theorem fill_costs_new_tracked_cost m all (ttc : list (list string * cost))
    (po_to_cost : gmap string cost) groups all' t i c0 :
  fill_costs_new m all ttc po_to_cost groups = Some all' →
  all !! i = Some c0 → m !! t = Some i →
  ∃ c', all' !! i = Some c'
        ∧ tracked_cost c'
          = foldl cadd
              (foldl cadd
                 (if skipped groups c0 then tracked_cost c0 else czero)
                 (items_booked_on m i ttc).*2)
              (mjoin (replicate (entries_for m i)
                         (po_prices_of po_to_cost c0)))
        ∧ entries_for m i = size (filter (λ kv : string * nat, kv.2 = i) m)
        ∧ 0 < entries_for m i.
Proof.
  intros Hall' Hi Hm.
  exists (cluster_after_costs m ttc po_to_cost groups i c0).
  split. { by rewrite (fill_costs_new_lookup _ _ _ _ _ _ i Hall'), Hi. }
  split; [|split; [apply entries_for_size | by eapply entries_for_some]].
  unfold cluster_after_costs.
  rewrite (iter_reset_cluster groups _ c0) by (by eapply entries_for_some).
  destruct (iter_add_po_costs_fields po_to_cost (entries_for m i)
              (foldl (λ c item, attribute item.2 item.1 c)
                 (reset_cluster groups c0) (items_booked_on m i ttc)))
    as [-> _].
  destruct (booked_fields (items_booked_on m i ttc) (reset_cluster groups c0))
    as [-> _].
  assert (Hpo : po_prices_of po_to_cost
                  (foldl (λ c item, attribute item.2 item.1 c)
                     (reset_cluster groups c0) (items_booked_on m i ttc))
                = po_prices_of po_to_cost c0).
  { unfold po_prices_of.
    destruct (without_costs_fields c0
                (foldl (λ c item, attribute item.2 item.1 c)
                   (reset_cluster groups c0) (items_booked_on m i ttc)))
      as (_ & -> & _); [|done].
    by rewrite without_costs_booked, without_costs_reset. }
  rewrite Hpo. unfold reset_cluster. by destruct (skipped groups c0).
Qed.

(** X18: the non-reimbursed trackings that [fill_costs_new] leaves on a
    cluster that some tracking is mapped to.  They are the cluster's
    trackings (its old non-reimbursed trackings when the group filter skips
    it) minus the trackings of the tuples whose first tracking is mapped to
    the cluster.  A tuple whose first tracking is mapped elsewhere, or is
    unmapped, removes nothing from this cluster. *)
Theorem fill_costs_new_non_reimbursed_exact m all
    (ttc : list (list string * cost)) (po_to_cost : gmap string cost) groups
    all' t i c0 :
  fill_costs_new m all ttc po_to_cost groups = Some all' →
  all !! i = Some c0 → m !! t = Some i →
  ∃ c', all' !! i = Some c'
        ∧ ∀ x, x ∈ non_reimbursed_trackings c'
               ↔ x ∈ (if skipped groups c0 then non_reimbursed_trackings c0
                      else trackings c0)
                 ∧ ∀ item, item ∈ ttc → targets m i item → x ∉ item.1.
Proof.
  intros Hall' Hi Hm.
  exists (cluster_after_costs m ttc po_to_cost groups i c0).
  split. { by rewrite (fill_costs_new_lookup _ _ _ _ _ _ i Hall'), Hi. }
  intros x. unfold cluster_after_costs.
  rewrite (iter_reset_cluster groups _ c0) by (by eapply entries_for_some).
  destruct (iter_add_po_costs_fields po_to_cost (entries_for m i)
              (foldl (λ c item, attribute item.2 item.1 c)
                 (reset_cluster groups c0) (items_booked_on m i ttc)))
    as [_ ->].
  destruct (booked_fields (items_booked_on m i ttc) (reset_cluster groups c0))
    as [_ ->].
  assert (Hbase : non_reimbursed_trackings (reset_cluster groups c0)
                  = if skipped groups c0 then non_reimbursed_trackings c0
                    else trackings c0).
  { unfold reset_cluster. by destruct (skipped groups c0). }
  rewrite Hbase. unfold items_booked_on. split.
  - intros [Hx Hall]. split; [done|]. intros item Hin Ht.
    apply Hall. by apply list_elem_of_filter.
  - intros [Hx Hall]. split; [done|].
    intros item [Ht Hin]%list_elem_of_filter. by apply Hall.
Qed.

(** ** [fill_cancellations] *)

Lemma foldl_add_cancellations (cancellations_by_order : gmap string (list string))
    (items : list string) (order_ids : list string) :
  foldl (add_cancellations cancellations_by_order) items order_ids
  = items ++ mjoin (omap (λ o, cancellations_by_order !! o) order_ids).
Proof.
  revert items. induction order_ids as [|o rest IH]; intros items;
    cbn [foldl omap list_omap].
  - cbn. by rewrite app_nil_r.
  - rewrite IH. unfold add_cancellations.
    destruct (cancellations_by_order !! o); [|done].
    cbn [mjoin list_join]. by rewrite (assoc_L (++)).
Qed.

(** X19: [fill_cancellations] replaces the cancelled items of every cluster
    by the cancelled items of its orders: an item is listed afterwards
    exactly when it is listed for one of the cluster's orders, a cluster none
    of whose orders has cancellations ends with the empty list, whatever was
    there before is dropped, and no other field changes. *)
Theorem fill_cancellations_spec
    (cancellations_by_order : gmap string (list string)) all_clusters i cluster :
  all_clusters !! i = Some cluster →
  ∃ cluster',
    fill_cancellations cancellations_by_order all_clusters !! i = Some cluster'
    ∧ cancelled_items cluster'
      = mjoin (omap (λ o, cancellations_by_order !! o)
                  (elements (orders cluster)))
    ∧ (∀ item, item ∈ cancelled_items cluster'
               ↔ ∃ order cancelled,
                   order ∈ orders cluster
                   ∧ cancellations_by_order !! order = Some cancelled
                   ∧ item ∈ cancelled)
    ∧ ((∀ order, order ∈ orders cluster →
                 cancellations_by_order !! order = None) →
       cancelled_items cluster' = [])
    ∧ cluster' = set_cancelled_items (cancelled_items cluster') cluster.
Proof.
  intros Hi. exists (fill_cancellations_cluster cancellations_by_order cluster).
  split. { unfold fill_cancellations. by rewrite list_lookup_fmap, Hi. }
  assert (Hc : cancelled_items
                 (fill_cancellations_cluster cancellations_by_order cluster)
               = mjoin (omap (λ o, cancellations_by_order !! o)
                           (elements (orders cluster)))).
  { unfold fill_cancellations_cluster. cbn. apply foldl_add_cancellations. }
  assert (Hiff : ∀ item,
            item ∈ cancelled_items
                     (fill_cancellations_cluster cancellations_by_order cluster)
            ↔ ∃ order cancelled,
                order ∈ orders cluster
                ∧ cancellations_by_order !! order = Some cancelled
                ∧ item ∈ cancelled).
  { intros item. rewrite Hc, list_elem_of_join. split.
    - intros (l & Hitem & (o & Ho & Hl)%list_elem_of_omap).
      exists o, l. split; [by apply elem_of_elements | done].
    - intros (o & l & Ho & Hl & Hitem). exists l. split; [done|].
      apply list_elem_of_omap. exists o. split; [|done].
      by apply elem_of_elements. }
  split; [exact Hc|]. split; [exact Hiff|]. split; [|done].
  intros Hnone.
  destruct (cancelled_items
              (fill_cancellations_cluster cancellations_by_order cluster))
    as [|item items] eqn:Hitems; [done|].
  exfalso. destruct (proj1 (Hiff item)) as (o & l & Ho & Hl & _).
  { by left. }
  rewrite (Hnone o Ho) in Hl. discriminate.
Qed.

(** ** [fill_purchase_orders] *)

Lemma foldl_add_purchase_order (tracking_to_po : gmap string string)
    (pos : gset string) (ts : list string) :
  foldl (add_purchase_order tracking_to_po) pos ts
  = pos ∪ list_to_set (omap (λ t, tracking_to_po !! t) ts).
Proof.
  revert pos. induction ts as [|t ts IH]; intros pos;
    cbn [foldl omap list_omap].
  - by rewrite list_to_set_nil, (right_id_L ∅ (∪)).
  - rewrite IH. unfold add_purchase_order.
    destruct (tracking_to_po !! t) as [po|]; [|done].
    by rewrite list_to_set_cons, (assoc_L (∪)).
Qed.

(** X20: [fill_purchase_orders] only adds.  A cluster that the group filter
    skips is left as it is; any other cluster ends with its old purchase
    orders together with the purchase order of each of its trackings that
    the scrape knows, and with every other field, the tracked cost included,
    as before. *)
Theorem fill_purchase_orders_spec (tracking_to_po : gmap string string)
    (groups : list string) all_clusters i cluster :
  all_clusters !! i = Some cluster →
  ∃ cluster',
    fill_purchase_orders tracking_to_po groups all_clusters !! i
    = Some cluster'
    ∧ (skipped groups cluster = true → cluster' = cluster)
    ∧ (skipped groups cluster = false →
       ∀ po, po ∈ purchase_orders cluster'
             ↔ po ∈ purchase_orders cluster
               ∨ ∃ t, t ∈ trackings cluster ∧ tracking_to_po !! t = Some po)
    ∧ purchase_orders cluster ⊆ purchase_orders cluster'
    ∧ cluster' = set_purchase_orders (purchase_orders cluster') cluster.
Proof.
  intros Hi.
  exists (fill_purchase_orders_cluster tracking_to_po groups cluster).
  split. { unfold fill_purchase_orders. by rewrite list_lookup_fmap, Hi. }
  unfold fill_purchase_orders_cluster.
  destruct (skipped groups cluster) eqn:Hs.
  - split; [done|]. split; [done|]. split; [done|]. by destruct cluster.
  - split; [done|]. cbn. rewrite foldl_add_purchase_order.
    split; [|split; [apply union_subseteq_l | done]].
    intros _ po. rewrite elem_of_union, elem_of_list_to_set, list_elem_of_omap.
    split.
    + intros [Hpo | (t & Ht & Hpo)]; [by left|].
      right. exists t. split; [by apply elem_of_elements | done].
    + intros [Hpo | (t & Ht & Hpo)]; [by left|].
      right. exists t. split; [by apply elem_of_elements | done].
Qed.

Lemma fill_purchase_orders_cluster_idem (tracking_to_po : gmap string string)
    (groups : list string) cluster :
  fill_purchase_orders_cluster tracking_to_po groups
    (fill_purchase_orders_cluster tracking_to_po groups cluster)
  = fill_purchase_orders_cluster tracking_to_po groups cluster.
Proof.
  unfold fill_purchase_orders_cluster at 2.
  destruct (skipped groups cluster) eqn:Hs.
  - unfold fill_purchase_orders_cluster. by rewrite Hs.
  - unfold fill_purchase_orders_cluster.
    rewrite (skipped_same_group groups _ cluster), Hs by done. cbn.
    rewrite !foldl_add_purchase_order.
    by rewrite <- (assoc_L (∪)), (idemp_L (∪)).
Qed.

(** X21: running [fill_purchase_orders] twice with the same scrape and the
    same groups gives the same clusters as running it once. *)
Theorem fill_purchase_orders_idempotent (tracking_to_po : gmap string string)
    (groups : list string) all_clusters :
  fill_purchase_orders tracking_to_po groups
    (fill_purchase_orders tracking_to_po groups all_clusters)
  = fill_purchase_orders tracking_to_po groups all_clusters.
Proof.
  unfold fill_purchase_orders. rewrite <- list_fmap_compose.
  apply list_fmap_ext. intros i c _. apply fill_purchase_orders_cluster_idem.
Qed.

(** ** [get_new_tracking_pos_costs_maps] *)

Lemma dict_get_set {V} (d : list (list string * V)) k v k' :
  dict_get (dict_set d k v) k'
  = if decide (k' = k) then Some v else dict_get d k'.
Proof.
  induction d as [|[k0 v0] d IH]; cbn [dict_set dict_get].
  - by destruct (decide (k' = k)).
  - destruct (decide (k = k0)) as [->|Hne]; cbn [dict_get].
    + by destruct (decide (k' = k0)).
    + rewrite IH. destruct (decide (k' = k0)) as [->|?]; [|done].
      by rewrite decide_False.
Qed.

Lemma dict_set_keys {V} (d : list (list string * V)) k v :
  (dict_set d k v).*1 = if decide (k ∈ d.*1) then d.*1 else d.*1 ++ [k].
Proof.
  induction d as [|[k0 v0] d IH]; cbn [dict_set fmap list_fmap fst].
  - rewrite decide_False; [done|]. by intros ?%elem_of_nil.
  - destruct (decide (k = k0)) as [->|Hne]; cbn [fmap list_fmap fst].
    + rewrite decide_True; [done | by left].
    + fold (@fmap list _ _ _ (@fst (list string) V) (dict_set d k v)).
      fold (@fmap list _ _ _ (@fst (list string) V) d).
      rewrite IH. destruct (decide (k ∈ d.*1)) as [Hin|Hni].
      * rewrite decide_True; [done | by right].
      * rewrite decide_False; [done|].
        by intros [?|?]%elem_of_cons.
Qed.

Lemma dict_set_NoDup {V} (d : list (list string * V)) k v :
  NoDup d.*1 → NoDup (dict_set d k v).*1.
Proof.
  intros Hd. rewrite dict_set_keys. case_decide as Hin; [done|].
  apply NoDup_app. split; [done|]. split; [|apply NoDup_singleton].
  intros x Hx ->%list_elem_of_singleton. done.
Qed.

Lemma dict_update_NoDup {V} (d other : list (list string * V)) :
  NoDup d.*1 → NoDup (dict_update d other).*1.
Proof.
  unfold dict_update. revert d.
  induction other as [|[k v] other IH]; intros d Hd; cbn [foldl]; [done|].
  by apply IH, dict_set_NoDup.
Qed.

Lemma dict_get_None {V} (d : list (list string * V)) k :
  dict_get d k = None ↔ k ∉ d.*1.
Proof.
  induction d as [|[k0 v0] d IH]; cbn [dict_get fmap list_fmap fst].
  - split; [intros _ ?%elem_of_nil; done | done].
  - fold (@fmap list _ _ _ (@fst (list string) V) d).
    destruct (decide (k = k0)) as [->|Hne].
    + split; [done|]. intros Hni. exfalso. apply Hni. by left.
    + rewrite IH. split.
      * intros Hni [?|?]%elem_of_cons; done.
      * intros Hni Hin. apply Hni. by right.
Qed.

(** [update] from a dictionary: the new value where the other dictionary
    has the key, the old one elsewhere. *)
Lemma dict_get_update {V} (d other : list (list string * V)) k :
  NoDup other.*1 →
  dict_get (dict_update d other) k
  = from_option Some (dict_get d k) (dict_get other k).
Proof.
  unfold dict_update. revert d.
  induction other as [|[k0 v0] other IH]; intros d Hnd; cbn [foldl]; [done|].
  cbn [fmap list_fmap fst] in Hnd.
  fold (@fmap list _ _ _ (@fst (list string) V) other) in Hnd.
  apply NoDup_cons in Hnd as [Hk0 Hnd].
  rewrite (IH _ Hnd), dict_get_set. cbn [fst snd dict_get].
  destruct (decide (k = k0)) as [->|Hne]; [|done].
  apply dict_get_None in Hk0. by rewrite Hk0.
Qed.

(** Folding look-ups group by group, a later hit replacing an earlier one. *)
Lemma foldl_prefer_new_tail {V} (look : string → option V) (o : option V) gs :
  (∀ g, g ∈ gs → look g = None) →
  foldl (λ o g, from_option Some o (look g)) o gs = o.
Proof.
  revert o. induction gs as [|g gs IH]; intros o Hnone; cbn [foldl]; [done|].
  rewrite (Hnone g) by (by left). cbn. apply IH.
  intros g' Hg'. apply Hnone. by right.
Qed.

Lemma foldl_prefer_new_None {V} (look : string → option V) (o : option V) gs :
  foldl (λ o g, from_option Some o (look g)) o gs = None
  ↔ o = None ∧ ∀ g, g ∈ gs → look g = None.
Proof.
  revert o. induction gs as [|g gs IH]; intros o; cbn [foldl].
  - split; [|by intros [? _]]. intros ->. split; [done|].
    intros g Hg. by apply elem_of_nil in Hg.
  - rewrite IH. split.
    + intros [Ho Hrest]. destruct (look g) as [v|] eqn:Hg; [done|].
      cbn in Ho. split; [done|].
      intros g' [->|Hg']%elem_of_cons; [done | by apply Hrest].
    + intros [-> Hall]. rewrite (Hall g) by (by left). split; [done|].
      intros g' Hg'. apply Hall. by right.
Qed.

Lemma get_new_maps_fold
    (fetch : string → list (list string * cost) * gmap string cost)
    (acc : list (list string * cost) * gmap string cost) (gs : list string) :
  (∀ g, g ∈ gs → NoDup (fetch g).1.*1) →
  let result :=
    foldl (λ acc group,
             (dict_update acc.1 (fetch group).1, (fetch group).2 ∪ acc.2))
          acc gs in
  (NoDup acc.1.*1 → NoDup result.1.*1)
  ∧ (∀ k, dict_get result.1 k
          = foldl (λ o g, from_option Some o (dict_get (fetch g).1 k))
                  (dict_get acc.1 k) gs)
  ∧ (∀ po, result.2 !! po
           = foldl (λ o g, from_option Some o ((fetch g).2 !! po))
                   (acc.2 !! po) gs).
Proof.
  revert acc. induction gs as [|g gs IH]; intros acc Hnd; cbn [foldl].
  - done.
  - destruct (IH (dict_update acc.1 (fetch g).1, (fetch g).2 ∪ acc.2))
      as (Hkeys & Hget & Hpo).
    { intros g' Hg'. apply Hnd. by right. }
    cbn zeta. split; [|split].
    + intros Hacc. apply Hkeys. cbn [fst]. by apply dict_update_NoDup.
    + intros k. rewrite Hget. cbn [fst].
      rewrite dict_get_update by (apply Hnd; by left). done.
    + intros po. rewrite Hpo. cbn [snd]. f_equal.
      rewrite lookup_union. by destruct ((fetch g).2 !! po), (acc.2 !! po).
Qed.

(** X22: merging the carrier data of the groups.  The groups are those
    given on the command line, or all configured groups when none is given.
    In both returned dictionaries a key is present exactly when some group
    reports it, and when several groups report the same key the value of the
    last such group in processing order is the one kept; the tuple
    dictionary never holds a key twice. *)
Theorem get_new_tracking_pos_costs_maps_last_wins
    (config_groups args_groups : list string)
    (fetch : string → list (list string * cost) * gmap string cost) :
  let groups := selected_groups args_groups config_groups in
  let result :=
    get_new_tracking_pos_costs_maps config_groups fetch args_groups in
  (∀ g, g ∈ groups → NoDup (fetch g).1.*1) →
  (args_groups = [] → groups = config_groups)
  ∧ (args_groups ≠ [] → groups = args_groups)
  ∧ NoDup result.1.*1
  ∧ (∀ k earlier g later v,
       groups = earlier ++ g :: later →
       dict_get (fetch g).1 k = Some v →
       (∀ g', g' ∈ later → dict_get (fetch g').1 k = None) →
       dict_get result.1 k = Some v)
  ∧ (∀ k, dict_get result.1 k = None
          ↔ ∀ g, g ∈ groups → dict_get (fetch g).1 k = None)
  ∧ (∀ po earlier g later v,
       groups = earlier ++ g :: later →
       (fetch g).2 !! po = Some v →
       (∀ g', g' ∈ later → (fetch g').2 !! po = None) →
       result.2 !! po = Some v)
  ∧ (∀ po, result.2 !! po = None
           ↔ ∀ g, g ∈ groups → (fetch g).2 !! po = None).
Proof.
  intros groups result Hnd.
  destruct (get_new_maps_fold fetch ([], ∅) groups Hnd)
    as (Hkeys & Hget & Hpo).
  fold result in Hkeys, Hget, Hpo. cbn [fst snd dict_get] in Hget, Hpo.
  split. { by intros ->. }
  split. { subst groups. by destruct args_groups. }
  split. { apply Hkeys. cbn. apply NoDup_nil_2. }
  split; [|split; [|split]].
  - intros k earlier g later v Hsplit Hv Hlater.
    rewrite Hget, Hsplit, foldl_app. cbn [foldl]. rewrite Hv. cbn.
    by apply foldl_prefer_new_tail.
  - intros k. rewrite Hget, foldl_prefer_new_None. split; [by intros [_ ?]|].
    done.
  - intros po earlier g later v Hsplit Hv Hlater.
    rewrite Hpo, Hsplit, foldl_app. cbn [foldl]. rewrite Hv. cbn.
    by apply (foldl_prefer_new_tail (λ g, (fetch g).2 !! po)).
  - intros po. rewrite Hpo, lookup_empty.
    rewrite (foldl_prefer_new_None (λ g, (fetch g).2 !! po)).
    split; [by intros [_ ?] | done].
Qed.

(** ** The table rows of [get_usa_purchase_orders] *)

Lemma first_word_no_space w : space ∉ chars w → first_word w = w.
Proof.
  induction w as [|a w IH]; cbn [chars first_word]; [done|].
  intros Hno. destruct (Ascii.eqb a space) eqn:Ha.
  - apply Ascii.eqb_eq in Ha as ->. exfalso. apply Hno. by left.
  - f_equal. apply IH. intros Hin. apply Hno. by right.
Qed.

Lemma first_word_cut w rest :
  space ∉ chars w → first_word (w +:+ String space rest) = w.
Proof.
  induction w as [|a w IH]; cbn [chars]; intros Hno.
  - done.
  - change (String a w +:+ String space rest)
      with (String a (w +:+ String space rest)).
    cbn [first_word]. destruct (Ascii.eqb a space) eqn:Ha.
    + apply Ascii.eqb_eq in Ha as ->. exfalso. apply Hno. by left.
    + f_equal. apply IH. intros Hin. apply Hno. by right.
Qed.

Lemma first_word_chars text : space ∉ chars (first_word text).
Proof.
  induction text as [|a text IH]; cbn [first_word chars].
  - by intros ?%elem_of_nil.
  - destruct (Ascii.eqb a space) eqn:Ha; cbn [chars].
    + by intros ?%elem_of_nil.
    + intros [Heq|Hin]%elem_of_cons; [|done].
      rewrite <- Heq, Ascii.eqb_refl in Ha. discriminate.
Qed.

Lemma scrape_row_None (result : gmap string string) entries :
  scrape_row result entries = None ↔ length entries < 4.
Proof.
  unfold scrape_row.
  destruct (entries !! 2) as [t|] eqn:H2.
  - destruct (entries !! 3) as [cell|] eqn:H3.
    + apply lookup_lt_Some in H3. split; [done | lia].
    + apply lookup_ge_None in H3. split; [lia | done].
  - apply lookup_ge_None in H2. split; [lia | done].
Qed.

Lemma scrape_rows_None (result : gmap string string) rows :
  scrape_rows result rows = None ↔ ∃ entries, entries ∈ rows ∧ length entries < 4.
Proof.
  revert result. induction rows as [|entries rows IH]; intros result;
    cbn [scrape_rows].
  - split; [done|]. intros (e & He & _). by apply elem_of_nil in He.
  - destruct (scrape_row result entries) as [result'|] eqn:Hrow.
    + rewrite IH. split.
      * intros (e & He & Hl). exists e. split; [by right | done].
      * intros (e & [->|He]%elem_of_cons & Hl); [|by exists e].
        apply (scrape_row_None result) in Hl. congruence.
    + split; [|done]. intros _. exists entries. split; [by left|].
      by eapply scrape_row_None.
Qed.

Lemma scrape_rows_lookup_outside (result result' : gmap string string) rows t :
  scrape_rows result rows = Some result' →
  (∀ entries, entries ∈ rows → entries !! 2 ≠ Some t) →
  result' !! t = result !! t.
Proof.
  revert result. induction rows as [|entries rows IH]; intros result;
    cbn [scrape_rows].
  - by intros [= <-].
  - unfold scrape_row at 1.
    destruct (entries !! 2) as [t0|] eqn:H2; [|done].
    destruct (entries !! 3) as [cell|]; [|done].
    intros Hrest Hout. rewrite (IH _ Hrest).
    + apply lookup_insert_ne. intros ->. by apply (Hout entries); [left|].
    + intros e He. apply Hout. by right.
Qed.

(** X23: reading the table rows of the check-in page.  The loop raises
    exactly when some row has fewer than four cells.  Otherwise a tracking
    that occurs in the third cell of some row is mapped to the text of the
    fourth cell of the last such row, cut at its first space; that purchase
    order never contains a space; and the entry of a tracking that occurs in
    no row is as it was before. *)
Theorem scrape_rows_spec (result : gmap string string)
    (rows : list (list string)) :
  (scrape_rows result rows = None
   ↔ ∃ entries, entries ∈ rows ∧ length entries < 4)
  ∧ ∀ result', scrape_rows result rows = Some result' →
      (∀ earlier entries later t cell,
         rows = earlier ++ entries :: later →
         entries !! 2 = Some t → entries !! 3 = Some cell →
         (∀ e, e ∈ later → e !! 2 ≠ Some t) →
         result' !! t = Some (first_word cell))
      ∧ (∀ t, (∀ e, e ∈ rows → e !! 2 ≠ Some t) →
              result' !! t = result !! t)
      ∧ (∀ t po, result' !! t = Some po → result !! t ≠ Some po →
                 space ∉ chars po).
Proof.
  split; [apply scrape_rows_None|].
  intros result' Hres. split; [|split].
  - intros earlier entries later t cell -> H2 H3 Hlater.
    revert result Hres. induction earlier as [|e earlier IH]; intros result.
    + cbn [app scrape_rows]. unfold scrape_row. rewrite H2, H3.
      intros Hrest.
      rewrite (scrape_rows_lookup_outside _ _ _ t Hrest Hlater).
      apply lookup_insert_eq.
    + cbn [app scrape_rows]. destruct (scrape_row result e); [|done].
      apply IH.
  - intros t Hout. by apply (scrape_rows_lookup_outside result result' rows).
  - revert result Hres. induction rows as [|entries rows IH]; intros result;
      cbn [scrape_rows].
    + intros [= <-] t po Hpo Hne. congruence.
    + unfold scrape_row at 1.
      destruct (entries !! 2) as [t0|]; [|done].
      destruct (entries !! 3) as [cell|]; [|done].
      intros Hrest t po Hpo Hne.
      destruct (decide (<[t0:=first_word cell]> result !! t = Some po))
        as [Hhere|Hnot].
      * destruct (decide (t = t0)) as [->|Hd].
        -- rewrite lookup_insert_eq in Hhere. injection Hhere as <-.
           apply first_word_chars.
        -- rewrite lookup_insert_ne in Hhere by done. congruence.
      * by apply (IH _ Hrest t po).
Qed.

(** ** Merging and booking together *)

Lemma cluster_after_costs_removed m (ttc : list (list string * cost))
    (po_to_cost : gmap string cost) groups i c0 item x :
  item ∈ ttc → targets m i item → x ∈ item.1 →
  x ∉ non_reimbursed_trackings
        (cluster_after_costs m ttc po_to_cost groups i c0).
Proof.
  intros Hin Ht Hx. unfold cluster_after_costs.
  destruct (iter_add_po_costs_fields po_to_cost (entries_for m i)
              (foldl (λ c item, attribute item.2 item.1 c)
                 (Nat.iter (entries_for m i) (reset_cluster groups) c0)
                 (items_booked_on m i ttc))) as [_ ->].
  destruct (booked_fields (items_booked_on m i ttc)
              (Nat.iter (entries_for m i) (reset_cluster groups) c0))
    as [_ Hn].
  rewrite Hn. intros [_ Hall]. apply (Hall item); [|done].
  unfold items_booked_on. by apply list_elem_of_filter.
Qed.

(** X24: merging first and booking the costs afterwards, as [reconcile_new]
    does.  When no tracking occurs in two tuples, then after
    [merge_by_trackings_tuples] and [fill_costs_new] on the merged state no
    tracking of any tuple is left among the non-reimbursed trackings of the
    cluster it is mapped to. *)
Theorem merged_tuples_are_reimbursed
    (st : list (Cluster cost) * gmap string nat)
    (ttc : list (list string * cost)) (po_to_cost : gmap string cost) groups
    all' item t i c' :
  pairwise_disjoint ttc.*1 →
  fill_costs_new (merge_by_trackings_tuples st ttc).2
    (merge_by_trackings_tuples st ttc).1 ttc po_to_cost groups = Some all' →
  item ∈ ttc → t ∈ item.1 →
  (merge_by_trackings_tuples st ttc).2 !! t = Some i →
  all' !! i = Some c' →
  t ∉ non_reimbursed_trackings c'.
Proof.
  intros Hdis Hall' Hitem Ht Hm Hc'.
  rewrite (fill_costs_new_lookup _ _ _ _ _ _ i Hall') in Hc'.
  destruct ((merge_by_trackings_tuples st ttc).1 !! i) as [c0|]; [|done].
  injection Hc' as <-.
  apply (cluster_after_costs_removed _ _ _ _ _ _ item); [done| |done].
  unfold targets. destruct item as [tuple c]. cbn [fst] in *.
  destruct tuple as [|first_tracking rest]; [by apply elem_of_nil in Ht|].
  cbn. rewrite <- Hm. symmetry.
  destruct (decide (length (first_tracking :: rest) = 1)) as [Hl|Hl].
  - destruct rest; [|done]. by apply list_elem_of_singleton in Ht as ->.
  - pose proof (merge_settles_all st ttc Hdis) as Hall.
    rewrite Forall_forall in Hall.
    assert (Hin : first_tracking :: rest ∈ ttc.*1).
    { apply list_elem_of_fmap. by exists (first_tracking :: rest, c). }
    destruct (Hall _ Hin) as [Hlen | [Hnone | [f Hsame]]]; [done| |].
    + rewrite (Hnone t Ht). symmetry. apply Hnone. by left.
    + rewrite (Hsame t Ht). symmetry. apply Hsame. by left.
Qed.

End with_num.
End ReconcileLaws.

Module LawsExamples.
Import Uploader Reconcile UploaderLaws ReconcileLaws.

Lemma compare_verified_pair_witness :
  sorts_before Data.checked Data.checked_too
  ∧ sorts_before Data.checked_too Data.checked
  ∧ sorts_before Data.checked Data.checked.
Proof.
  apply (compare_verified_pair Data.checked Data.checked_too); reflexivity.
Defined.



Lemma fill_adjustments_unknown_cluster_witness :
  ∃ c', fill_adjustments [Data.sheet_AB] [Data.new_D] !! 0 = Some c'
        ∧ adjustment c' = 0%Z ∧ notes c' = EmptyString
        ∧ flags c' = flags Data.new_D.
Proof.
  refine (fill_adjustments_unknown_cluster [Data.sheet_AB] [Data.new_D] 0
            Data.new_D eq_refl _).
  intros d ->%list_elem_of_singleton.
  apply (bool_decide_unpack _). vm_compute. exact I.
Defined.

Lemma fill_email_ids_spec_witness :
  ∃ cluster',
    fill_email_ids Data.order_lookup_mail [Data.cl_scenario] !! 0
    = Some cluster'
    ∧ expected_cost cluster' = 30%Z
    ∧ "m1"%string ∈ email_ids cluster'.
Proof.
  destruct (fill_email_ids_spec Data.order_lookup_mail [Data.cl_scenario] 0
              Data.cl_scenario eq_refl) as (c' & Hc' & Hids & He & _).
  exists c'. split; [exact Hc'|]. split.
  - rewrite He. vm_compute. reflexivity.
  - apply Hids. exists "O1"%string, (mkOrderInfo (Some "m1"%string) 10%Z).
    split; [|done]. apply (bool_decide_unpack _). vm_compute. exact I.
Defined.

Lemma tuples_apart_disjoint : pairwise_disjoint Data.tuples_apart.*1.
Proof.
  cbn. split; [|done]. apply Forall_cons. split; [|done].
  intros t Ht ->%list_elem_of_singleton.
  apply elem_of_cons in Ht as [?|Ht]; [done|].
  by apply list_elem_of_singleton in Ht.
Qed.

Lemma merge_rerun_disjoint_witness :
  merge_by_trackings_tuples
    (merge_by_trackings_tuples (Data.start Data.store_ABC) Data.tuples_apart)
    Data.tuples_apart
  = merge_by_trackings_tuples (Data.start Data.store_ABC) Data.tuples_apart.
Proof.
  apply (merge_rerun_disjoint (Data.start Data.store_ABC) Data.tuples_apart).
  apply tuples_apart_disjoint.
Defined.

Lemma merge_first_tracking_represents_witness :
  (merge_by_trackings_tuples (Data.start Data.store_ABC) Data.tuples_apart).2
    !! "B"%string
  = (merge_by_trackings_tuples (Data.start Data.store_ABC) Data.tuples_apart).2
      !! "A"%string.
Proof.
  apply (merge_first_tracking_represents (Data.start Data.store_ABC)
           Data.tuples_apart Data.tuple_AB "A"%string ["B"%string]).
  - apply tuples_apart_disjoint.
  - by left.
  - reflexivity.
  - cbn. lia.
  - right. by left.
Defined.

Lemma fill_costs_new_frame_witness :
  ∃ all' c',
    fill_costs_new (map_clusters_by_tracking [Data.cl_AB_P]) [Data.cl_AB_P]
      [Data.tuple_AB] Data.po_prices [] = Some all'
    ∧ all' !! 0 = Some c'
    ∧ c' = set_tracked_cost (tracked_cost c')
             (set_non_reimbursed_trackings (non_reimbursed_trackings c')
                Data.cl_AB_P).
Proof.
  destruct (fill_costs_new (map_clusters_by_tracking [Data.cl_AB_P])
              [Data.cl_AB_P] [Data.tuple_AB] Data.po_prices [])
    as [all'|] eqn:Hall'; [|by vm_compute in Hall'].
  destruct (fill_costs_new_frame _ _ _ _ _ _ 0 Data.cl_AB_P Hall' eq_refl)
    as (c' & Hc' & Hframe & _).
  by exists all', c'.
Defined.

Lemma fill_costs_new_tracked_cost_witness :
  ∃ all' c',
    fill_costs_new (map_clusters_by_tracking [Data.cl_AB_P]) [Data.cl_AB_P]
      [Data.tuple_AB] Data.po_prices [] = Some all'
    ∧ all' !! 0 = Some c'
    ∧ tracked_cost c' = 70%Z
    ∧ entries_for (map_clusters_by_tracking [Data.cl_AB_P]) 0 = 2.
Proof.
  destruct (fill_costs_new (map_clusters_by_tracking [Data.cl_AB_P])
              [Data.cl_AB_P] [Data.tuple_AB] Data.po_prices [])
    as [all'|] eqn:Hall'; [|by vm_compute in Hall'].
  destruct (fill_costs_new_tracked_cost _ _ _ _ _ _ "A"%string 0
              Data.cl_AB_P Hall' eq_refl)
    as (c' & Hc' & Htc & _); [vm_compute; reflexivity|].
  exists all', c'. split; [done|]. split; [done|].
  split; [rewrite Htc|]; vm_compute; reflexivity.
Defined.

Lemma fill_costs_new_non_reimbursed_exact_witness :
  ∃ all' c',
    fill_costs_new (map_clusters_by_tracking [Data.cl_AB_P]) [Data.cl_AB_P]
      [Data.tuple_AB] Data.po_prices [] = Some all'
    ∧ all' !! 0 = Some c'
    ∧ "B"%string ∉ non_reimbursed_trackings c'.
Proof.
  destruct (fill_costs_new (map_clusters_by_tracking [Data.cl_AB_P])
              [Data.cl_AB_P] [Data.tuple_AB] Data.po_prices [])
    as [all'|] eqn:Hall'; [|by vm_compute in Hall'].
  destruct (fill_costs_new_non_reimbursed_exact _ _ _ _ _ _ "A"%string 0
              Data.cl_AB_P Hall' eq_refl)
    as (c' & Hc' & Hn); [vm_compute; reflexivity|].
  exists all', c'. split; [done|]. split; [done|].
  rewrite Hn. intros [_ Hall]. apply (Hall Data.tuple_AB).
  - by left.
  - vm_compute. reflexivity.
  - right. by left.
Defined.

Lemma fill_cancellations_spec_witness :
  ∃ cluster',
    fill_cancellations Data.cancellations [Data.cl_scenario] !! 0
    = Some cluster'
    ∧ cancelled_items cluster' = ["blue mug"%string].
Proof.
  destruct (fill_cancellations_spec Data.cancellations [Data.cl_scenario] 0
              Data.cl_scenario eq_refl) as (c' & Hc' & Hitems & _).
  exists c'. split; [exact Hc'|]. rewrite Hitems. vm_compute. reflexivity.
Defined.

Lemma fill_purchase_orders_spec_witness :
  ∃ cluster',
    fill_purchase_orders Data.scraped [] [Data.cl_AB_P] !! 0 = Some cluster'
    ∧ "PO7"%string ∈ purchase_orders cluster'
    ∧ "P"%string ∈ purchase_orders cluster'.
Proof.
  destruct (fill_purchase_orders_spec Data.scraped [] [Data.cl_AB_P] 0
              Data.cl_AB_P eq_refl) as (c' & Hc' & _ & Hpo & _).
  exists c'. split; [exact Hc'|]. split.
  - apply (Hpo eq_refl). right. exists "A"%string.
    split; [|reflexivity]. apply (bool_decide_unpack _). vm_compute. exact I.
  - apply (Hpo eq_refl). left. by apply elem_of_singleton.
Defined.

Lemma fetch_group_NoDup g : NoDup (Data.fetch_group g).1.*1.
Proof.
  unfold Data.fetch_group. repeat case_decide; cbn.
  - apply NoDup_singleton.
  - apply NoDup_cons. split; [|apply NoDup_singleton].
    by intros ?%list_elem_of_singleton.
  - apply NoDup_nil_2.
Qed.

Lemma get_new_tracking_pos_costs_maps_last_wins_witness :
  let result :=
    get_new_tracking_pos_costs_maps ["usa"; "mys"]%string Data.fetch_group []
  in
  dict_get result.1 ["A"; "B"]%string = Some 55%Z
  ∧ result.2 !! "P"%string = Some 12%Z.
Proof.
  intros result.
  destruct (get_new_tracking_pos_costs_maps_last_wins ["usa"; "mys"]%string []
              Data.fetch_group)
    as (_ & _ & _ & Hlast & _ & Hpo & _).
  { intros g _. apply fetch_group_NoDup. }
  split.
  - apply (Hlast _ ["usa"%string] "mys"%string []); [reflexivity..|].
    intros g' Hg'. by apply elem_of_nil in Hg'.
  - apply (Hpo _ ["usa"%string] "mys"%string []); [reflexivity..|].
    intros g' Hg'. by apply elem_of_nil in Hg'.
Defined.

Lemma merged_tuples_are_reimbursed_witness :
  let st := merge_by_trackings_tuples (Data.start Data.store_ABC)
              Data.tuples_apart in
  ∃ all' c',
    fill_costs_new st.2 st.1 Data.tuples_apart Data.po_prices [] = Some all'
    ∧ all' !! 0 = Some c'
    ∧ "B"%string ∉ non_reimbursed_trackings c'.
Proof.
  intros st. subst st.
  destruct (fill_costs_new
              (merge_by_trackings_tuples (Data.start Data.store_ABC)
                 Data.tuples_apart).2
              (merge_by_trackings_tuples (Data.start Data.store_ABC)
                 Data.tuples_apart).1
              Data.tuples_apart Data.po_prices [])
    as [all'|] eqn:Hall'; [|by vm_compute in Hall'].
  destruct (all' !! 0) as [c'|] eqn:Hc'.
  - exists all', c'. split; [done|]. split; [done|].
    apply (merged_tuples_are_reimbursed (Data.start Data.store_ABC)
             Data.tuples_apart Data.po_prices [] all' Data.tuple_AB
             "B"%string 0 c').
    + apply tuples_apart_disjoint.
    + exact Hall'.
    + by left.
    + right. by left.
    + vm_compute. reflexivity.
    + exact Hc'.
  - rewrite (fill_costs_new_lookup _ _ _ _ _ _ 0 Hall') in Hc'.
    by vm_compute in Hc'.
Defined.

End LawsExamples.
